(** * spdy-go: the stream multiplexing core

    A shallow embedding of [spdy/session.go] (the session: stream table,
    stream-id allocation, frame routing, teardown) and of the stream file
    of the same repository (package [myspdy]: [Stream], [StreamReader],
    [StreamWriter]), followed by the properties proved about them.

    Conventions.
    - A Go [uint32] is a [Z] in [0, 2^32); every addition the code performs
      on one is written with its wrap-around ([uint32 (x + 2)]).
    - A Go [error] is [option error]: [None] is [nil].
    - A method with a pointer receiver takes the receiver's state as its
      last argument and returns the new state next to its Go results.
    - [*Stream] pointers are indices into [heap], the list of stream
      objects allocated so far; the stream table maps an id to a pointer,
      as [map[uint32]*Stream] does.
    - A [go] statement starts a goroutine; the model runs one thread of
      control, so the goroutine's body is not executed and its place is
      marked by a comment. *)

From Stdlib Require Import ZArith Lia.
From stdpp Require Import base option list gmap strings.

Open Scope Z_scope.

(** ** Machine integers *)

Definition uint32 (z : Z) : Z := z mod 2 ^ 32.

Definition uint32_max : Z := 2 ^ 32 - 1.

(** ** Errors

    [errors.New] values of the two files, [io.EOF], and the errors of the
    transport, which the code only passes along. *)

Inductive error :=
  | io_EOF
  | ErrInvalidLocalStreamId              (* "Invalid local stream id" *)
  | ErrInvalidRemoteStreamId             (* "Invalid remote stream id" *)
  | ErrStreamAlreadyExists (id : Z)      (* "Stream %d already exists" *)
  | ErrNoSuchStream (id : Z)             (* "No such stream: %v" *)
  | ErrTransport (code : nat).           (* an error of the connection *)

Definition is_EOF (e : option error) : bool :=
  match e with Some io_EOF => true | _ => false end.

Definition is_nil (e : option error) : bool :=
  match e with None => true | Some _ => false end.

(** ** Frames

    The frame types come from the [spdy] wire library, which the two files
    import; only the fields the two files read or write are kept. *)

Abbreviation bytes := (list Byte.byte).

Abbreviation Header := (gmap string (list string)).

Definition ControlFlagFin : Z := 1.

Inductive StatusCode :=
  | ProtocolError | InvalidStream | RefusedStream | UnsupportedVersion
  | Cancel | InternalError | FlowControlError.

Inductive Frame :=
  | SynStreamFrame (StreamId : Z) (Flags : Z) (Headers : Header)
  | SynReplyFrame (StreamId : Z) (Flags : Z) (Headers : Header)
  | HeadersFrame (StreamId : Z) (Flags : Z) (Headers : Header)
  | DataFrame (StreamId : Z) (Flags : Z) (Data : bytes)
  | RstStreamFrame (StreamId : Z) (Status : StatusCode)
  | SettingsFrame
  | NoopFrame
  | PingFrame (Id : Z)
  | GoAwayFrame (LastGoodStreamId : Z).

(** Modelled from the spec: [Frame.GetStreamId] is not in the two files;
    every frame carries "a stream ID (0 for session-wide kinds)". *)
Definition GetStreamId (frame : Frame) : Z :=
  match frame with
  | SynStreamFrame id _ _ | SynReplyFrame id _ _ | HeadersFrame id _ _
  | DataFrame id _ _ | RstStreamFrame id _ => id
  | SettingsFrame | NoopFrame | PingFrame _ | GoAwayFrame _ => 0
  end.

(** The type assertion of [processFrame]: is the frame a SYN_STREAM? *)
Definition is_SynStreamFrame (frame : Frame) : bool :=
  match frame with SynStreamFrame _ _ _ => true | _ => false end.

(** The frames [StreamWriter.writeFrame] is given: the three kinds that
    carry a header block. *)
Definition is_header_frame (frame : Frame) : bool :=
  match frame with
  | SynStreamFrame _ _ _ | SynReplyFrame _ _ _ | HeadersFrame _ _ _ => true
  | _ => false
  end.

(** The FIN bit of a frame's flags. *)
Definition has_fin (frame : Frame) : bool :=
  match frame with
  | SynStreamFrame _ fl _ | SynReplyFrame _ fl _ | HeadersFrame _ fl _
  | DataFrame _ fl _ => Z.testbit fl 0
  | _ => false
  end.

(** ** The transport: [FrameReadWriter]

    The capability is supplied from outside. Its behaviour over one run is
    fixed by what the successive [ReadFrame] calls return ([inbound]) and by
    which [WriteFrame] calls fail ([wfail k] for the call number [k]);
    [wlog] records every frame handed to [WriteFrame] with the outcome of
    the call. *)

Record FrameReadWriter := mkFramer {
  inbound : list (Frame + error);
  wfail : nat -> option error;
  wlog : list (Frame * option error);
}.

(** [None]: no frame has arrived yet, the call blocks. *)
Definition ReadFrame (f : FrameReadWriter)
  : option ((Frame + error) * FrameReadWriter) :=
  match inbound f with
  | [] => None
  | r :: rest => Some (r, mkFramer rest (wfail f) (wlog f))
  end.

Definition WriteFrame (frame : Frame) (f : FrameReadWriter)
  : FrameReadWriter * option error :=
  let err := wfail f (length (wlog f)) in
  (mkFramer (inbound f) (wfail f) (wlog f ++ [(frame, err)]), err).

(** The frames that reached the peer: those whose write did not fail. *)
Definition emitted (log : list (Frame * option error)) : list Frame :=
  (filter (fun e => is_nil e.2 = true) log).*1.

(** A transport on which every write succeeds / fails with [e]. *)
Definition never_fails : nat -> option error := fun _ => None.
Definition always_fails (e : error) : nat -> option error := fun _ => Some e.

(** ** Streams *)

Record streamMessage := mkMessage {
  msg_data : option bytes;
  msg_headers : option Header;
}.

(** Modelled from the spec: the message queue [MQ] is not in the two files.
    "An unbounded, ordered, thread-safe queue of opaque messages with
    blocking receive and non-blocking send; closing it makes pending and
    future receives fail with an end-of-stream signal", "once closed and
    drained". *)
Record MQ := mkMQ {
  items : list streamMessage;
  mq_closed : bool;
}.

Record StreamReader := mkReader {
  reader_headers : Header;
  data : MQ;
}.

(** Modelled from the spec: [writer_closed] is what
    [stream.Output.Closed()] reads, a method that is not in the two files
    ("both Reader and Writer expose a closed predicate"). The other two
    fields are the struct's. *)
Record StreamWriter := mkWriter {
  writer_headers : Header;
  nFramesSent : Z;
  writer_closed : bool;
}.

(** The back pointers ([Stream.session], [StreamReader.stream],
    [StreamWriter.stream]) are not stored: a method that follows one takes
    what it reaches as an argument. *)
Record Stream := mkStream {
  Id : Z;
  Input : StreamReader;
  Output : StreamWriter;
  IsMine : bool;
}.

Abbreviation ptr := nat.

Definition Handler := nat.

Record Session := mkSession {
  framer : FrameReadWriter;
  Server : bool;
  lastStreamIdOut : Z;
  lastStreamIdIn : Z;
  streams : gmap Z ptr;
  handler : option Handler;
  closed : bool;
  heap : list Stream;
}.

Definition set_framer (f : FrameReadWriter) (s : Session) : Session :=
  mkSession f (Server s) (lastStreamIdOut s) (lastStreamIdIn s) (streams s)
            (handler s) (closed s) (heap s).
Definition set_lastStreamIdOut (id : Z) (s : Session) : Session :=
  mkSession (framer s) (Server s) id (lastStreamIdIn s) (streams s)
            (handler s) (closed s) (heap s).
Definition set_lastStreamIdIn (id : Z) (s : Session) : Session :=
  mkSession (framer s) (Server s) (lastStreamIdOut s) id (streams s)
            (handler s) (closed s) (heap s).
Definition set_streams (m : gmap Z ptr) (s : Session) : Session :=
  mkSession (framer s) (Server s) (lastStreamIdOut s) (lastStreamIdIn s) m
            (handler s) (closed s) (heap s).
Definition set_closed (b : bool) (s : Session) : Session :=
  mkSession (framer s) (Server s) (lastStreamIdOut s) (lastStreamIdIn s)
            (streams s) (handler s) b (heap s).
Definition set_heap (h : list Stream) (s : Session) : Session :=
  mkSession (framer s) (Server s) (lastStreamIdOut s) (lastStreamIdIn s)
            (streams s) (handler s) (closed s) h.

Definition set_Input (r : StreamReader) (st : Stream) : Stream :=
  mkStream (Id st) r (Output st) (IsMine st).
Definition set_Output (w : StreamWriter) (st : Stream) : Stream :=
  mkStream (Id st) (Input st) w (IsMine st).

(** Needed to read a stream object through a pointer ([heap !!! p]); the
    default is never read in a session a program can see
    ([reachable_table_valid]). *)
Global Instance Stream_inhabited : Inhabited Stream :=
  populate (mkStream 0 (mkReader ∅ (mkMQ [] false)) (mkWriter ∅ 0 false) false).

(** ** The message queue *)

Module mq.

Definition NewMQ : MQ := mkMQ [] false.

(** A message sent to a closed queue is dropped: the spec only says that
    [Send] "never fails for an open queue". *)
Definition Send (msg : streamMessage) (q : MQ) : MQ :=
  if mq_closed q then q else mkMQ (items q ++ [msg]) (mq_closed q).

(** [None]: the queue is open and empty, the caller blocks. A closed and
    drained queue answers with the end-of-stream error and no message: the
    messages are opaque to the queue, which has none of its own to hand
    over. *)
Definition Receive (q : MQ) : option (option streamMessage * option error * MQ) :=
  match items q with
  | msg :: rest => Some (Some msg, None, mkMQ rest (mq_closed q))
  | [] => if mq_closed q then Some (None, Some io_EOF, q) else None
  end.

Definition Close (q : MQ) : MQ := mkMQ (items q) true.

Definition Closed (q : MQ) : bool := mq_closed q.

End mq.

(** ** The stream file: constructor *)

Module stream.

Definition newStream (id : Z) (IsMine : bool) : Stream :=
  mkStream id (mkReader ∅ mq.NewMQ) (mkWriter ∅ 0 false) IsMine.

End stream.

(** ** StreamWriter *)

(** Modelled from the spec: [bufio.Reader] is one of the "line-oriented
    text framing helpers": a source of records that ends with an error,
    [io.EOF] at a regular end. *)
Record LineSource := mkLines {
  records : list bytes;
  last_error : error;
}.

Definition ReadLine (src : LineSource) : bytes * option error * LineSource :=
  match records src with
  | line :: rest => (line, None, mkLines rest (last_error src))
  | [] => ([], Some (last_error src), src)
  end.

Module writer.

Definition Headers (st : Stream) : Header := writer_headers (Output st).

Definition set_headers (h : Header) (st : Stream) : Stream :=
  set_Output (mkWriter h (nFramesSent (Output st)) (writer_closed (Output st))) st.

Definition set_nFramesSent (n : Z) (st : Stream) : Stream :=
  set_Output (mkWriter (writer_headers (Output st)) n (writer_closed (Output st))) st.

Definition writeFrame (frame : Frame) (st : Stream) (f : FrameReadWriter)
  : Stream * FrameReadWriter * option error :=
  let '(f, err) := WriteFrame frame f in
  if negb (is_nil err) then (st, f, err)
  else (set_nFramesSent (uint32 (nFramesSent (Output st) + 1)) st, f, None).

Definition SendHeaders (final : bool) (st : Stream) (f : FrameReadWriter)
  : Stream * FrameReadWriter * option error :=
  let flags := if final then Z.lor 0 ControlFlagFin else 0 in
  if nFramesSent (Output st) =? 0 then
    if IsMine st then
      let '(st, f, err) := writeFrame (SynStreamFrame (Id st) flags (Headers st)) st f in
      if negb (is_nil err) then (st, f, err) else (st, f, None)
    else
      let '(st, f, err) := writeFrame (SynReplyFrame (Id st) flags (Headers st)) st f in
      if negb (is_nil err) then (st, f, err) else (st, f, None)
  else
    let '(st, f, err) := writeFrame (HeadersFrame (Id st) flags (Headers st)) st f in
    if negb (is_nil err) then (st, f, err) else (st, f, None).

(** The result of the implicit [SendHeaders] is dropped, and the data
    frame goes to the session's [WriteFrame], not to [writeFrame]. *)
Definition Send (data : bytes) (st : Stream) (f : FrameReadWriter)
  : Stream * FrameReadWriter * option error :=
  let '(st, f) :=
    if nFramesSent (Output st) =? 0 then
      let '(st, f, _) := SendHeaders false st f in (st, f)
    else (st, f) in
  let '(f, err) := WriteFrame (DataFrame (Id st) 0 data) f in
  (st, f, err).

(** [fuel] bounds the number of turns of the [for] loop; [None]: the loop
    is still running after [fuel] turns. In the last branch the Go code
    returns [err], the variable [ReadLine] set. *)
Fixpoint SendLines (fuel : nat) (lines : LineSource) (st : Stream)
    (f : FrameReadWriter)
  : option (LineSource * Stream * FrameReadWriter * option error) :=
  match fuel with
  | O => None
  | S fuel =>
      let '(line, err, lines) := ReadLine lines in
      if is_EOF err then Some (lines, st, f, None)
      else if negb (is_nil err) then Some (lines, st, f, err)
      else
        let '(st, f, serr) := Send line st f in
        if negb (is_nil serr) then Some (lines, st, f, err)
        else SendLines fuel lines st f
  end.

End writer.

(** ** StreamReader *)

(** Modelled from the spec: [updateHeaders] is not in the two files;
    "later header frames add/override keys; no removal". *)
Definition updateHeaders (dst src : Header) : Header := src ∪ dst.

(** What a call of [StreamReader.Receive] comes to: it returns its three
    results (with the reader as the call leaves it), or it blocks in the
    queue, or it panics. *)
Inductive received :=
  | Received (data : option bytes) (headers : option Header)
      (err : option error) (r : StreamReader)
  | Blocks
  | Panics.

Module reader.

Definition Headers (r : StreamReader) : Header := reader_headers r.

(** [Receive] reads [data] and [headers] through the message before the
    queue's error is looked at by anybody: with no message (the nil
    interface value that comes with the end-of-stream error) the type
    assertion on it panics, and the caller gets neither a value nor the
    error. *)
Definition Receive (r : StreamReader) : received :=
  match mq.Receive (data r) with
  | None => Blocks
  | Some (None, _, _) => Panics
  | Some (Some msg, err, q) =>
      Received (msg_data msg) (msg_headers msg) err (mkReader (reader_headers r) q)
  end.

Definition Push (d : option bytes) (h : option Header) (r : StreamReader)
  : StreamReader :=
  mkReader (reader_headers r) (mq.Send (mkMessage d h) (data r)).

(** Modelled from the spec: [StreamReader.Close] and [Closed] are not in
    the two files; [CloseStream] "closes the Reader's queue". *)
Definition Close (r : StreamReader) : StreamReader :=
  mkReader (reader_headers r) (mq.Close (data r)).

Definition Closed (r : StreamReader) : bool := mq.Closed (data r).

Section header_get.

(** [http.Header.Get] looks the key up in its canonical form; the
    canonical form is the standard library's. *)
Variable CanonicalMIMEHeaderKey : string -> string.

Definition Get (h : Header) (key : string) : string :=
  match h !! CanonicalMIMEHeaderKey key with
  | Some (v :: _) => v
  | _ => ""%string
  end.

(** [fuel] bounds the number of turns of the loop, each of which calls
    [Receive] once; [None]: the call has not returned (blocked on an
    empty queue, stopped by the panic of [Receive], or still looping
    after [fuel] turns). *)
Fixpoint WaitForHeader (fuel : nat) (key : string) (r : StreamReader)
  : option (string * option error * StreamReader) :=
  if String.eqb (Get (Headers r) key) "" then
    match fuel with
    | O => None
    | S fuel =>
        match Receive r with
        | Blocks | Panics => None
        | Received _ _ err r =>
            if negb (is_nil err) then Some (""%string, err, r)
            else WaitForHeader fuel key r
        end
    end
  else Some (Get (Headers r) key, None, r).

End header_get.

(** Modelled from the spec: [StreamReader.WriteFrame] is not in the two
    files. It is the path by which a decoded frame reaches the queue
    ([Push] is "used exclusively by the frame-routing path"), and it
    "signals end-of-stream" when "the frame explicitly closed the inbound
    direction". *)
Definition WriteFrame (frame : Frame) (r : StreamReader)
  : StreamReader * option error :=
  let r :=
    match frame with
    | SynStreamFrame _ _ h | SynReplyFrame _ _ h | HeadersFrame _ _ h =>
        Push None (Some h) r
    | DataFrame _ _ d => Push (Some d) None r
    | _ => r
    end in
  if has_fin frame then (Close r, Some io_EOF) else (r, None).

(** [writer] is the stream whose [Output] the messages are sent to;
    [None] as for [WaitForHeader]. *)
Fixpoint Pipe (fuel : nat) (r : StreamReader) (writer : Stream)
    (f : FrameReadWriter)
  : option (StreamReader * Stream * FrameReadWriter * option error) :=
  match fuel with
  | O => None
  | S fuel =>
      match Receive r with
      | Blocks | Panics => None
      | Received data headers err r =>
          if is_EOF err then Some (r, writer, f, None)
          else if negb (is_nil err) then Some (r, writer, f, err)
          else
            match headers, data with
            | Some h, _ =>
                let writer :=
                  writer.set_headers (updateHeaders (writer.Headers writer) h) writer in
                let '(writer, f, _) := writer.SendHeaders false writer f in
                Pipe fuel r writer f
            | None, Some d =>
                let '(writer, f, _) := writer.Send d writer f in
                Pipe fuel r writer f
            | None, None => Pipe fuel r writer f
            end
      end
  end.

End reader.

(** What [stream.Input.Close()] does to a stream object. *)
Definition close_input (st : Stream) : Stream :=
  set_Input (reader.Close (Input st)) st.

(** ** Session *)

Module session.

(** [go session.run()] is started by the caller of the model. *)
Definition NewSession (framer : FrameReadWriter) (handler : option Handler)
    (server : bool) : Session :=
  mkSession framer server 0 0 ∅ handler false [].

Definition Closed (s : Session) : bool := closed s.

Definition nextIdOut (s : Session) : Z :=
  if lastStreamIdOut s =? 0 then
    if Server s then 2 else 1
  else uint32 (lastStreamIdOut s + 2).

Definition nextIdIn (s : Session) : Z :=
  if lastStreamIdIn s =? 0 then
    if Server s then 1 else 2
  else uint32 (lastStreamIdIn s + 2).

Definition isLocalId (s : Session) (id : Z) : bool :=
  if Server s then id mod 2 =? 0
  else negb (id mod 2 =? 0).

(** [NewStream(id, local)] is the constructor of the stream file. The
    goroutine that copies [stream.Output] to the session is not run. *)
Definition newStream (id : Z) (local : bool) (s : Session)
  : Session * (ptr + error) :=
  if (if local then negb (isLocalId s id) || negb (id =? nextIdOut s)
      else isLocalId s id || negb (id =? nextIdIn s))
  then (s, inr (if local then ErrInvalidLocalStreamId
                else ErrInvalidRemoteStreamId))
  else
    match streams s !! id with
    | Some _ => (s, inr (ErrStreamAlreadyExists id))
    | None =>
        let stream := length (heap s) in
        let s := set_heap (heap s ++ [stream.newStream id local]) s in
        let s := set_streams (<[id := stream]> (streams s)) s in
        let s := if local then set_lastStreamIdOut id s
                 else set_lastStreamIdIn id s in
        (s, inl stream)
    end.

Definition OpenStream (s : Session) : Session * (ptr + error) :=
  let newId := nextIdOut s in
  match newStream newId true s with
  | (s, inr err) => (s, inr err)
  | (s, inl stream) => (s, inl stream)
  end.

(** [stream.Input.Close()] acts on the object the table points to. *)
Definition CloseStream (id : Z) (s : Session) : Session * option error :=
  match streams s !! id with
  | None => (s, Some (ErrNoSuchStream id))
  | Some stream =>
      let s := set_heap (alter close_input stream (heap s)) s in
      let s := set_streams (delete id (streams s)) s in
      (s, None)
  end.

(** The loop of [Close] over the ids in the order [ids]. *)
Definition CloseStreams (ids : list Z) (s : Session) : Session :=
  foldl (fun s id => (CloseStream id s).1) s ids.

(** Go visits the keys of a map in an order of its own choosing; an entry
    deleted before it is reached is skipped, and [CloseStream id] deletes
    no entry but [id]. The model visits them in the order of
    [map_to_list]. *)
Definition Close (s : Session) : Session :=
  let s := set_closed true s in
  CloseStreams (map_to_list (streams s)).*1 s.

Definition NStreams (s : Session) : nat := size (streams s).

(** [session.WriteFrame(frame)] with its result dropped. *)
Definition WriteFrame_ (frame : Frame) (s : Session) : Session :=
  set_framer (WriteFrame frame (framer s)).1 s.

Section frame_pump.

(** [StreamReader.WriteFrame], the reader's frame-ingestion path, is
    not in the two files: it is a parameter. *)
Variable Input_WriteFrame : Frame -> StreamReader -> StreamReader * option error.

(** The rest of [processFrame] once the SYN_STREAM case is passed:
    look the stream up and hand it the frame. *)
Definition route (frame : Frame) (streamId : Z) (s : Session) : Session :=
  match streams s !! streamId with
  | None => WriteFrame_ (RstStreamFrame streamId ProtocolError) s
  | Some stream =>
      let st := heap s !!! stream in
      let '(input, err) := Input_WriteFrame frame (Input st) in
      let s := set_heap (<[stream := set_Input input st]> (heap s)) s in
      if is_EOF err then
        if writer_closed (Output (heap s !!! stream)) then
          (CloseStream streamId s).1
        else s
      else if negb (is_nil err) then (CloseStream streamId s).1
      else s
  end.

(** [go stream.Serve(session.handler)] is not run. *)
Definition processFrame (frame : Frame) (s : Session) : Session :=
  let streamId := GetStreamId frame in
  if negb (streamId =? 0) then
    if is_SynStreamFrame frame then
      match newStream streamId false s with
      | (s, inr err) => WriteFrame_ (RstStreamFrame streamId ProtocolError) s
      | (s, inl stream) => route frame streamId s
      end
    else route frame streamId s
  else s.

Fixpoint receive_loop (fuel : nat) (s : Session)
  : option (Session * option error) :=
  match fuel with
  | O => None
  | S fuel =>
      match ReadFrame (framer s) with
      | None => None
      | Some (inr err, f) => Some (Close (set_framer f s), Some err)
      | Some (inl rawframe, f) =>
          receive_loop fuel (processFrame rawframe (set_framer f s))
      end
  end.

(** [fuel] bounds the number of frames read; [None]: the loop has not
    returned (it waits for a frame, or is still reading after [fuel]
    frames). *)
Definition run (fuel : nat) (s : Session) : option (Session * option error) :=
  match handler s with
  | None =>
      let '(f, err) := WriteFrame (GoAwayFrame 0) (framer s) in
      let s := set_framer f s in
      if negb (is_nil err) then Some (s, err)
      else receive_loop fuel s
  | Some _ => receive_loop fuel s
  end.

End frame_pump.

End session.

(** ** Runs *)

(** What can happen to a session: the calls of its exposed surface, and a
    frame handed to [processFrame] by the receive loop. *)
Inductive event :=
  | EvOpenStream
  | EvCloseStream (id : Z)
  | EvClose
  | EvFrame (frame : Frame).

Definition apply_event
    (Input_WriteFrame : Frame -> StreamReader -> StreamReader * option error)
    (ev : event) (s : Session) : Session :=
  match ev with
  | EvOpenStream => (session.OpenStream s).1
  | EvCloseStream id => (session.CloseStream id s).1
  | EvClose => session.Close s
  | EvFrame frame => session.processFrame Input_WriteFrame frame s
  end.

(** The sessions a program can see: a new session, then any events. *)
Inductive reachable
    (Input_WriteFrame : Frame -> StreamReader -> StreamReader * option error)
  : Session -> Prop :=
  | reachable_new framer handler server :
      reachable Input_WriteFrame (session.NewSession framer handler server)
  | reachable_event ev s :
      reachable Input_WriteFrame s ->
      reachable Input_WriteFrame (apply_event Input_WriteFrame ev s).

(** The calls of a stream's writer. *)
Inductive writer_call :=
  | CallSend (data : bytes)
  | CallSendHeaders (final : bool)
  | CallSendLines (lines : LineSource).

Definition do_call (c : writer_call) (st : Stream) (f : FrameReadWriter)
  : option (Stream * FrameReadWriter * option error) :=
  match c with
  | CallSend data => Some (writer.Send data st f)
  | CallSendHeaders final => Some (writer.SendHeaders final st f)
  | CallSendLines lines =>
      match writer.SendLines (S (length (records lines))) lines st f with
      | Some (_, st, f, err) => Some (st, f, err)
      | None => None
      end
  end.

(** A sequence of calls, whatever each returns. *)
Fixpoint do_calls (cs : list writer_call) (st : Stream) (f : FrameReadWriter)
  : option (Stream * FrameReadWriter) :=
  match cs with
  | [] => Some (st, f)
  | c :: cs =>
      match do_call c st f with
      | Some (st, f, _) => do_calls cs st f
      | None => None
      end
  end.

(** The number of frames of a log that were written without error, and
    the number of those that carry a header block. *)
Definition count_emitted (log : list (Frame * option error)) : nat :=
  length (emitted log).

Definition count_emitted_headers (log : list (Frame * option error)) : nat :=
  length (filter (fun frame => is_header_frame frame = true) (emitted log)).

(** The receive loop's view of the session after it has read [frames]:
    each frame is taken off the transport and processed. *)
Definition pop_inbound (s : Session) : Session :=
  set_framer (mkFramer (tail (inbound (framer s))) (wfail (framer s))
                       (wlog (framer s))) s.

Definition pump
    (Input_WriteFrame : Frame -> StreamReader -> StreamReader * option error)
    (frames : list Frame) (s : Session) : Session :=
  foldl (fun s frame => session.processFrame Input_WriteFrame frame (pop_inbound s))
        s frames.

Definition str (s : string) : bytes := String.list_byte_of_string s.


(** ** Sessions and streams used as examples *)

(** A server that has taken the incoming stream 1. *)
Definition session_with_stream_1 : Session :=
  mkSession (mkFramer [] never_fails []) true 0 1 {[ 1 := 0%nat ]} (Some 0%nat)
            false [stream.newStream 1 false].

(** A server one step before the end of the 32-bit range of its own ids,
    with no stream open. *)
Definition session_before_wrap : Session :=
  mkSession (mkFramer [] never_fails []) true (2 ^ 32 - 4) 0 ∅ (Some 0%nat)
            false [].

(** A server whose peer has come to the end of the 32-bit range of ids
    while its first stream was never closed: the stream object is the one
    [session_with_stream_1] holds, after its SYN_STREAM was delivered. *)
Definition session_wrapped_in : Session :=
  mkSession (mkFramer [] never_fails []) true 0 (2 ^ 32 - 1) {[ 1 := 0%nat ]}
            (Some 0%nat) false
            [set_Input (reader.WriteFrame (SynStreamFrame 1 0 ∅)
                          (Input (stream.newStream 1 false))).1
                       (stream.newStream 1 false)].

(** A server whose peer has come to the end of the 32-bit range of ids
    and has no stream open. *)
Definition session_wrapped_idle : Session :=
  mkSession (mkFramer [] never_fails []) true 0 (2 ^ 32 - 1) ∅ (Some 0%nat)
            false [].

(** [processFrame] created a stream: one more stream object exists. *)
Definition stream_created (s s' : Session) : Prop :=
  length (heap s') = S (length (heap s)).

(** The condition under which [newStream id false] accepts [id]. *)
Definition accepts_incoming (s : Session) (id : Z) : Prop :=
  session.isLocalId s id = false
  ∧ id = session.nextIdIn s
  ∧ streams s !! id = None.

Global Instance accepts_incoming_dec (s : Session) (id : Z) :
  Decision (accepts_incoming s id).
Proof. unfold accepts_incoming. apply _. Defined.

(** A transport whose first write fails and whose later writes succeed,
    one on which every write succeeds, and one on which every write
    fails. *)
Definition framer_first_write_fails : FrameReadWriter :=
  mkFramer [] (fun k => match k with O => Some (ErrTransport 1) | _ => None end) [].

Definition framer_ok : FrameReadWriter := mkFramer [] never_fails [].

Definition framer_down : FrameReadWriter :=
  mkFramer [] (always_fails (ErrTransport 1)) [].

(** The frame [SendHeaders final] hands to [writeFrame]. *)
Definition header_frame (final : bool) (st : Stream) : Frame :=
  let flags := if final then Z.lor 0 ControlFlagFin else 0 in
  if nFramesSent (Output st) =? 0 then
    if IsMine st then SynStreamFrame (Id st) flags (writer.Headers st)
    else SynReplyFrame (Id st) flags (writer.Headers st)
  else HeadersFrame (Id st) flags (writer.Headers st).

(** The records of a source sent one after the other. *)
Definition send_all (lines : list bytes) (st : Stream) (f : FrameReadWriter)
  : Stream * FrameReadWriter :=
  foldl (fun '(st, f) line => (writer.Send line st f).1) (st, f) lines.

(** From [(st, f)] to [(st', f')] the transport's log has grown, and
    [nFramesSent] has grown, as a 32-bit counter, by the number of header
    frames among the frames written without error. *)
Definition counted (st : Stream) (f : FrameReadWriter)
    (st' : Stream) (f' : FrameReadWriter) : Prop :=
  ∃ new, wlog f' = wlog f ++ new
    ∧ nFramesSent (Output st')
      = uint32 (nFramesSent (Output st) + Z.of_nat (count_emitted_headers new)).

Definition counter_in_range (st : Stream) : Prop :=
  0 <= nFramesSent (Output st) < 2 ^ 32.

(** A reader that has the header Status and two messages waiting. *)
Definition reader_with_status : StreamReader :=
  mkReader {[ "Status"%string := ["200"%string] ]}
           (mkMQ [mkMessage (Some (str "x")) None;
                  mkMessage None (Some {[ "A"%string := ["1"%string] ]})]
                 false).

(** The messages of C8: a header message, two data messages, and the end
    of the stream. *)
Definition reader_A_x_y : StreamReader :=
  mkReader ∅
           (mkMQ [mkMessage None (Some {[ "A"%string := ["1"%string] ]});
                  mkMessage (Some (str "x")) None;
                  mkMessage (Some (str "y")) None]
                 true).

(** A server whose transport delivers the SYN_STREAM of stream 1 and a
    data frame for it, and then fails. *)
Definition session_two_frames_then_error : Session :=
  session.NewSession
    (mkFramer [inl (SynStreamFrame 1 0 ∅); inl (DataFrame 1 0 (str "x"));
               inr (ErrTransport 9)]
              never_fails [])
    (Some 0%nat) true.

(** Every pointer of the table refers to an allocated stream object. *)
Definition table_valid (s : Session) : Prop :=
  ∀ id p, streams s !! id = Some p -> (p < length (heap s))%nat.

(** The incoming side of the table is below its mark: [lastStreamIdIn] is
    a 32-bit value of the remote parity (or 0), and every registered id of
    the remote parity is nonzero and at most [lastStreamIdIn]. *)
Definition incoming_bounded (s : Session) : Prop :=
  0 <= lastStreamIdIn s < 2 ^ 32
  ∧ (lastStreamIdIn s ≠ 0 -> session.isLocalId s (lastStreamIdIn s) = false)
  ∧ ∀ id p, streams s !! id = Some p -> session.isLocalId s id = false ->
      id ≠ 0 ∧ id <= lastStreamIdIn s.

(** The sessions a program can see while the peer's ids have not come to
    the end of the 32-bit range. *)
Inductive reachable_before_wrap
    (Input_WriteFrame : Frame -> StreamReader -> StreamReader * option error)
  : Session -> Prop :=
  | reachable_before_wrap_new framer handler server :
      reachable_before_wrap Input_WriteFrame
        (session.NewSession framer handler server)
  | reachable_before_wrap_event ev s :
      reachable_before_wrap Input_WriteFrame s ->
      lastStreamIdIn s + 2 < 2 ^ 32 ->
      reachable_before_wrap Input_WriteFrame (apply_event Input_WriteFrame ev s).


(** ** Further notions used by the properties *)

(** The session [newStream id local] leaves when it accepts the id. *)
Definition registered (id : Z) (local : bool) (s : Session) : Session :=
  (if local then set_lastStreamIdOut id else set_lastStreamIdIn id)
    (set_streams (<[id := length (heap s)]> (streams s))
       (set_heap (heap s ++ [stream.newStream id local]) s)).

(** The condition under which [newStream id local] accepts the id. *)
Definition accepts (s : Session) (id : Z) (local : bool) : Prop :=
  session.isLocalId s id = local
  ∧ id = (if local then session.nextIdOut s else session.nextIdIn s)
  ∧ streams s !! id = None.

(** A client that has opened nothing, a server that has opened nothing. *)
Definition new_client : Session :=
  session.NewSession framer_ok (Some 0%nat) false.

Definition new_server : Session :=
  session.NewSession framer_ok (Some 0%nat) true.

(** The outgoing side of the table is below its mark: [lastStreamIdOut]
    is a 32-bit value of the local parity (or 0), and every registered id
    of the local parity is nonzero and at most [lastStreamIdOut]. *)
Definition outgoing_bounded (s : Session) : Prop :=
  0 <= lastStreamIdOut s < 2 ^ 32
  ∧ (lastStreamIdOut s ≠ 0 -> session.isLocalId s (lastStreamIdOut s) = true)
  ∧ ∀ id p, streams s !! id = Some p -> session.isLocalId s id = true ->
      id ≠ 0 ∧ id <= lastStreamIdOut s.

(** The sessions a program can see while neither side's ids have come to
    the end of the 32-bit range. *)
Inductive reachable_in_range
    (Input_WriteFrame : Frame -> StreamReader -> StreamReader * option error)
  : Session -> Prop :=
  | reachable_in_range_new framer handler server :
      reachable_in_range Input_WriteFrame
        (session.NewSession framer handler server)
  | reachable_in_range_event ev s :
      reachable_in_range Input_WriteFrame s ->
      lastStreamIdIn s + 2 < 2 ^ 32 ->
      lastStreamIdOut s + 2 < 2 ^ 32 ->
      reachable_in_range Input_WriteFrame (apply_event Input_WriteFrame ev s).

(** Every registered id points to a stream object that carries this id,
    and whose [IsMine] tells whether the id has the local parity. *)
Definition table_consistent (s : Session) : Prop :=
  ∀ id p, streams s !! id = Some p ->
    ∃ st, heap s !! p = Some st ∧ Id st = id
      ∧ IsMine st = session.isLocalId s id.

(** A server on which the peer has opened stream 1 and the program has
    opened stream 2. *)
Definition session_two_streams : Session :=
  apply_event reader.WriteFrame EvOpenStream
    (apply_event reader.WriteFrame (EvFrame (SynStreamFrame 1 0 ∅)) new_server).

(** The FIN flag as [SendHeaders] computes it. *)
Definition fin_flag (final : bool) : Z := if final then 1 else 0.

(** The frame that opens a stream on the wire: SYN_STREAM from the side
    that opened the stream, SYN_REPLY from the other. *)
Definition opening_frame (st : Stream) (flags : Z) : Frame :=
  if IsMine st then SynStreamFrame (Id st) flags (writer.Headers st)
  else SynReplyFrame (Id st) flags (writer.Headers st).

(** Log entries of data frames written without error. *)
Definition data_frames (id : Z) (lines : list bytes)
  : list (Frame * option error) :=
  (fun d => (DataFrame id 0 d, None)) <$> lines.

(** Do the sends of these records, one after the other, all succeed? *)
Fixpoint sends_ok (lines : list bytes) (st : Stream) (f : FrameReadWriter)
  : bool :=
  match lines with
  | [] => true
  | line :: lines =>
      let '(st, f, err) := writer.Send line st f in
      is_nil err && sends_ok lines st f
  end.

(** A transport that refuses its third write only, and one whose second
    write fails. *)
Definition framer_third_write_fails : FrameReadWriter :=
  mkFramer [] (fun k => match k with 2%nat => Some (ErrTransport 3) | _ => None end) [].

(** A remotely opened stream that has sent its SYN_REPLY. *)
Definition stream_started : Stream :=
  writer.set_nFramesSent 1 (stream.newStream 1 false).

(** From [(st, f)] to [(st', f')] nothing of the stream has changed but
    [nFramesSent], and nothing of the transport but its log. *)
Definition kept (st : Stream) (f : FrameReadWriter)
    (st' : Stream) (f' : FrameReadWriter) : Prop :=
  st' = writer.set_nFramesSent (nFramesSent (Output st')) st
  ∧ inbound f' = inbound f
  ∧ wfail f' = wfail f.



(** Each mark is 0 or has the parity of its side. *)
Definition marks_parity (s : Session) : Prop :=
  (lastStreamIdOut s = 0 ∨ session.isLocalId s (lastStreamIdOut s) = true)
  ∧ (lastStreamIdIn s = 0 ∨ session.isLocalId s (lastStreamIdIn s) = false).
(** * Properties *)

(** ** Stream ids *)

Lemma uint32_small (z : Z) : 0 <= z < 2 ^ 32 -> uint32 z = z.
Proof. intros H. unfold uint32. by apply Z.mod_small. Qed.

Lemma uint32_range (z : Z) : 0 <= uint32 z < 2 ^ 32.
Proof. unfold uint32. apply Z.mod_pos_bound. lia. Qed.

Lemma isLocalId_server (s : Session) (id : Z) :
  Server s = true -> session.isLocalId s id = Z.even id.
Proof.
  intros Hs. unfold session.isLocalId. rewrite Hs.
  rewrite Zmod_even. by destruct (Z.even id).
Qed.

Lemma isLocalId_client (s : Session) (id : Z) :
  Server s = false -> session.isLocalId s id = Z.odd id.
Proof.
  intros Hs. unfold session.isLocalId. rewrite Hs.
  rewrite Zmod_even, <- Z.negb_even. by destruct (Z.even id).
Qed.

(** The first id a new session allocates. *)
Lemma nextIdOut_first (framer : FrameReadWriter) (handler : option Handler)
    (server : bool) :
  session.nextIdOut (session.NewSession framer handler server)
  = if server then 2 else 1.
Proof. reflexivity. Qed.

(** What a successful [newStream] does to the session. *)
Lemma newStream_ok (id : Z) (local : bool) (s s' : Session) (p : ptr) :
  session.newStream id local s = (s', inl p) ->
  session.isLocalId s id = local
  ∧ id = (if local then session.nextIdOut s else session.nextIdIn s)
  ∧ streams s !! id = None
  ∧ p = length (heap s)
  ∧ s' = (if local then set_lastStreamIdOut id else set_lastStreamIdIn id)
           (set_streams (<[id := p]> (streams s))
              (set_heap (heap s ++ [stream.newStream id local]) s)).
Proof.
  unfold session.newStream.
  destruct local; simpl.
  - destruct (session.isLocalId s id) eqn:Hl; simpl; [|discriminate].
    destruct (Z.eqb_spec id (session.nextIdOut s)) as [Hn|]; simpl; [|discriminate].
    destruct (streams s !! id) eqn:Hs; [discriminate|].
    intros [= <- <-]. done.
  - destruct (session.isLocalId s id) eqn:Hl; simpl; [discriminate|].
    destruct (Z.eqb_spec id (session.nextIdIn s)) as [Hn|]; simpl; [|discriminate].
    destruct (streams s !! id) eqn:Hs; [discriminate|].
    intros [= <- <-]. done.
Qed.

(** A failed [newStream] changes nothing. *)
Lemma newStream_error (id : Z) (local : bool) (s s' : Session) (err : error) :
  session.newStream id local s = (s', inr err) -> s' = s.
Proof.
  unfold session.newStream.
  destruct (if local then _ else _); [by intros [= <-]|].
  destruct (streams s !! id); [by intros [= <-]|discriminate].
Qed.

(** When [newStream] succeeds. *)
Lemma newStream_accepts (id : Z) (local : bool) (s : Session) :
  session.isLocalId s id = local ->
  id = (if local then session.nextIdOut s else session.nextIdIn s) ->
  streams s !! id = None ->
  ∃ s', session.newStream id local s = (s', inl (length (heap s))).
Proof.
  intros Hl Hn Hs. unfold session.newStream. rewrite Hl, Hs.
  destruct local; simpl.
  - destruct (Z.eqb_spec id (session.nextIdOut s)); [simpl; eauto|done].
  - destruct (Z.eqb_spec id (session.nextIdIn s)); [simpl; eauto|done].
Qed.

(** After [n] has been registered as locally opened, the allocator returns
    [n + 2] in 32-bit arithmetic. *)
Lemma nextIdOut_after_newStream (n : Z) (s s' : Session) (p : ptr) :
  session.newStream n true s = (s', inl p) ->
  session.nextIdOut s' = uint32 (n + 2).
Proof.
  intros H. apply newStream_ok in H as (Hl & Hn & _ & _ & ->).
  unfold session.nextIdOut at 1. simpl.
  destruct (Z.eqb_spec n 0) as [->|]; [|done].
  unfold session.isLocalId in Hl.
  destruct (Server s); [done|discriminate].
Qed.

(** Below the end of the 32-bit range that is [n + 2] itself. *)
Lemma nextIdOut_after_newStream_small (n : Z) (s s' : Session) (p : ptr) :
  session.newStream n true s = (s', inl p) ->
  n + 2 < 2 ^ 32 ->
  session.nextIdOut s' = n + 2.
Proof.
  intros H Hlt. rewrite (nextIdOut_after_newStream _ _ _ _ H).
  apply newStream_ok in H as (_ & Hn & _).
  apply uint32_small. split; [|done].
  assert (0 <= n); [|lia]. subst n. unfold session.nextIdOut.
  destruct (_ =? _); [destruct (Server s); lia|apply uint32_range].
Qed.

(** ** Teardown of one stream *)

Lemma close_input_closed (st : Stream) :
  reader.Closed (Input (close_input st)) = true.
Proof. reflexivity. Qed.

Lemma close_input_idemp (st : Stream) :
  close_input (close_input st) = close_input st.
Proof. reflexivity. Qed.

Lemma CloseStream_absent (id : Z) (s : Session) :
  streams s !! id = None ->
  session.CloseStream id s = (s, Some (ErrNoSuchStream id)).
Proof. intros H. unfold session.CloseStream. by rewrite H. Qed.

Lemma CloseStream_present (id : Z) (s : Session) (p : ptr) :
  streams s !! id = Some p ->
  session.CloseStream id s
  = (set_streams (delete id (streams s))
       (set_heap (alter close_input p (heap s)) s), None).
Proof. intros H. unfold session.CloseStream. by rewrite H. Qed.

Lemma CloseStream_closed (id : Z) (s : Session) :
  closed (session.CloseStream id s).1 = closed s.
Proof. unfold session.CloseStream. by destruct (streams s !! id). Qed.

Lemma CloseStream_streams (id : Z) (s : Session) :
  streams (session.CloseStream id s).1 = delete id (streams s).
Proof.
  unfold session.CloseStream. destruct (streams s !! id) eqn:H; [done|].
  simpl. symmetry. by apply delete_id.
Qed.

(** One [CloseStream] leaves a stream object as it is or closes its
    input. *)
Lemma CloseStream_heap (id : Z) (s : Session) (p : ptr) :
  heap (session.CloseStream id s).1 !! p
  = if decide (streams s !! id = Some p) then close_input <$> heap s !! p
    else heap s !! p.
Proof.
  unfold session.CloseStream. destruct (streams s !! id) as [q|] eqn:H; simpl.
  - rewrite list_lookup_alter. by repeat case_decide; simplify_eq.
  - done.
Qed.

(** C6: [CloseStream id] on an id that is not registered returns an error
    and leaves the session, its stream table included, as it was. On a
    registered id it returns no error, closes the queue of that stream's
    reader (the object stays the same otherwise), and removes the id from
    the table, so that a second [CloseStream id] returns an error. *)
Theorem CloseStream_spec (id : Z) (s : Session) :
  (streams s !! id = None ->
     ∃ err, session.CloseStream id s = (s, Some err))
  ∧ (∀ p, streams s !! id = Some p ->
       ∃ s', session.CloseStream id s = (s', None)
         ∧ streams s' = delete id (streams s)
         ∧ (∀ st, heap s !! p = Some st ->
              heap s' !! p = Some (close_input st)
              ∧ reader.Closed (Input (close_input st)) = true)
         ∧ ∃ err, session.CloseStream id s' = (s', Some err)).
Proof.
  split.
  - intros H. eexists. by apply CloseStream_absent.
  - intros p H. eexists. split; [by apply CloseStream_present|].
    split; [done|]. split.
    + intros st Hst. split; [|done].
      change (alter close_input p (heap s) !! p = Some (close_input st)).
      rewrite list_lookup_alter, Hst. by case_decide.
    + eexists. apply CloseStream_absent. simpl. apply lookup_delete_eq.
Qed.

Lemma CloseStream_spec_witness :
  streams session_with_stream_1 !! 1 = Some 0%nat
  ∧ ∃ s', session.CloseStream 1 session_with_stream_1 = (s', None)
      ∧ streams s' = delete 1 (streams session_with_stream_1)
      ∧ (∀ st, heap session_with_stream_1 !! 0%nat = Some st ->
           heap s' !! 0%nat = Some (close_input st)
           ∧ reader.Closed (Input (close_input st)) = true)
      ∧ ∃ err, session.CloseStream 1 s' = (s', Some err).
Proof.
  split; [reflexivity|].
  exact (proj2 (CloseStream_spec 1 session_with_stream_1) 0%nat eq_refl).
Defined.

(** ** Registration *)

(** C9: registering a stream under an id that is already in the stream
    table fails with an error and leaves the session as it was: the table,
    [lastStreamIdOut] and [lastStreamIdIn] are those of before. *)
Theorem newStream_duplicate (id : Z) (local : bool) (s : Session) :
  is_Some (streams s !! id) ->
  ∃ err, session.newStream id local s = (s, inr err).
Proof.
  intros [p Hp]. unfold session.newStream.
  destruct (if local then _ else _); [eauto|].
  rewrite Hp. eauto.
Qed.

Lemma newStream_duplicate_witness :
  is_Some (streams session_wrapped_in !! 1)
  ∧ ∃ err, session.newStream 1 false session_wrapped_in
           = (session_wrapped_in, inr err).
Proof.
  assert (H : is_Some (streams session_wrapped_in !! 1)).
  { exists 0%nat. reflexivity. }
  exact (conj H (newStream_duplicate 1 false session_wrapped_in H)).
Defined.

Lemma newStream_rejects (id : Z) (local : bool) (s : Session) :
  ¬ (session.isLocalId s id = local
     ∧ id = (if local then session.nextIdOut s else session.nextIdIn s)
     ∧ streams s !! id = None) ->
  ∃ err, session.newStream id local s = (s, inr err).
Proof.
  intros Hno.
  destruct (session.newStream id local s) as [s' [p|err]] eqn:H.
  - apply newStream_ok in H as (? & ? & ? & _). by destruct Hno.
  - rewrite (newStream_error _ _ _ _ _ H). eauto.
Qed.

(** ** Routing of SYN_STREAM *)

Section routing.

Variable Input_WriteFrame : Frame -> StreamReader -> StreamReader * option error.

Lemma CloseStream_framer (id : Z) (s : Session) :
  framer (session.CloseStream id s).1 = framer s.
Proof. unfold session.CloseStream. by destruct (streams s !! id). Qed.

Lemma CloseStream_heap_length (id : Z) (s : Session) :
  length (heap (session.CloseStream id s).1) = length (heap s).
Proof.
  unfold session.CloseStream. destruct (streams s !! id); [|done].
  simpl. apply length_alter.
Qed.

Lemma CloseStream_last_ids (id : Z) (s : Session) :
  lastStreamIdIn (session.CloseStream id s).1 = lastStreamIdIn s
  ∧ lastStreamIdOut (session.CloseStream id s).1 = lastStreamIdOut s
  ∧ Server (session.CloseStream id s).1 = Server s.
Proof. unfold session.CloseStream. by destruct (streams s !! id). Qed.

(** Handing a frame to a registered stream writes nothing to the
    transport and allocates nothing. *)
Lemma route_registered (frame : Frame) (id : Z) (s : Session) :
  is_Some (streams s !! id) ->
  framer (session.route Input_WriteFrame frame id s) = framer s
  ∧ length (heap (session.route Input_WriteFrame frame id s)) = length (heap s)
  ∧ lastStreamIdIn (session.route Input_WriteFrame frame id s) = lastStreamIdIn s.
Proof.
  intros [p Hp]. unfold session.route. rewrite Hp.
  destruct (Input_WriteFrame frame _) as [input err].
  destruct (is_EOF err); [destruct (writer_closed _)|destruct (negb (is_nil err))];
    rewrite ?CloseStream_framer, ?CloseStream_heap_length;
    rewrite ?(proj1 (CloseStream_last_ids _ _)); simpl;
    by rewrite ?length_insert.
Qed.

(** The table after a frame was handed to a stream whose writer is open:
    the stream stays when the reader took the frame or signalled the end
    of the stream, and is torn down on any other error. *)
Lemma route_writer_open (frame : Frame) (id : Z) (s : Session) (p : ptr)
    (st : Stream) (input : StreamReader) (err : option error) :
  streams s !! id = Some p ->
  heap s !! p = Some st ->
  writer_closed (Output st) = false ->
  Input_WriteFrame frame (Input st) = (input, err) ->
  streams (session.route Input_WriteFrame frame id s)
  = if is_nil err || is_EOF err then streams s else delete id (streams s).
Proof.
  intros Hp Hst Hopen Hin. unfold session.route. rewrite Hp.
  rewrite (list_lookup_total_correct _ _ _ Hst), Hin. simpl.
  rewrite list_lookup_total_insert_eq by (by eapply lookup_lt_Some).
  simpl. rewrite Hopen.
  destruct err as [e|]; [|done].
  destruct e; simpl; try done; by rewrite CloseStream_streams.
Qed.

Lemma processFrame_SynStream_rejected (id flags : Z) (headers : Header)
    (s : Session) :
  id ≠ 0 ->
  ¬ accepts_incoming s id ->
  session.processFrame Input_WriteFrame (SynStreamFrame id flags headers) s
  = session.WriteFrame_ (RstStreamFrame id ProtocolError) s.
Proof.
  intros Hid Hno. unfold session.processFrame. simpl.
  destruct (Z.eqb_spec id 0); [done|]. simpl.
  destruct (newStream_rejects id false s Hno) as [err ->]. done.
Qed.

Lemma processFrame_SynStream_accepted (id flags : Z) (headers : Header)
    (s : Session) :
  id ≠ 0 ->
  accepts_incoming s id ->
  ∃ s1, session.newStream id false s = (s1, inl (length (heap s)))
    ∧ session.processFrame Input_WriteFrame (SynStreamFrame id flags headers) s
      = session.route Input_WriteFrame (SynStreamFrame id flags headers) id s1.
Proof.
  intros Hid (Hl & Hn & Hs).
  destruct (newStream_accepts id false s Hl Hn Hs) as [s1 H1].
  exists s1. split; [done|].
  unfold session.processFrame. simpl.
  destruct (Z.eqb_spec id 0); [done|]. simpl. by rewrite H1.
Qed.

End routing.

(** What [processFrame] does with a SYN_STREAM frame of nonzero id. When
    the three checks of [newStream] pass, a new stream object is
    registered under the id, [lastStreamIdIn] becomes the id, nothing is
    written to the transport, and the frame is handed to the stream; the
    id is still in the table afterwards unless the reader refuses the
    frame with an error other than the end of the stream. Otherwise the
    session writes one RST_STREAM frame with the status protocol error for
    that id, and neither the table, the stream objects nor the two last
    ids change. *)
Lemma processFrame_SynStream_effect
    (Input_WriteFrame : Frame -> StreamReader -> StreamReader * option error)
    (id flags : Z) (headers : Header) (s : Session) :
  id ≠ 0 ->
  let frame := SynStreamFrame id flags headers in
  let s' := session.processFrame Input_WriteFrame frame s in
  (stream_created s s' ↔ accepts_incoming s id)
  ∧ (accepts_incoming s id ->
       ∃ s1 p, session.newStream id false s = (s1, inl p)
         ∧ streams s1 = <[id := p]> (streams s)
         ∧ heap s1 !! p = Some (stream.newStream id false)
         ∧ lastStreamIdIn s1 = id
         ∧ s' = session.route Input_WriteFrame frame id s1
         ∧ framer s' = framer s
         ∧ ∀ input err,
             Input_WriteFrame frame (Input (stream.newStream id false))
             = (input, err) ->
             streams s' = if is_nil err || is_EOF err
                          then <[id := p]> (streams s) else streams s)
  ∧ (¬ accepts_incoming s id ->
       wlog (framer s')
       = wlog (framer s)
         ++ [(RstStreamFrame id ProtocolError,
              wfail (framer s) (length (wlog (framer s))))]
       ∧ streams s' = streams s
       ∧ heap s' = heap s
       ∧ lastStreamIdIn s' = lastStreamIdIn s
       ∧ lastStreamIdOut s' = lastStreamIdOut s).
Proof.
  intros Hid frame s'.
  assert (Hyes : accepts_incoming s id ->
    ∃ s1 p, session.newStream id false s = (s1, inl p)
      ∧ streams s1 = <[id := p]> (streams s)
      ∧ heap s1 !! p = Some (stream.newStream id false)
      ∧ lastStreamIdIn s1 = id
      ∧ s' = session.route Input_WriteFrame frame id s1
      ∧ framer s' = framer s
      ∧ (∀ input err,
           Input_WriteFrame frame (Input (stream.newStream id false))
           = (input, err) ->
           streams s' = if is_nil err || is_EOF err
                        then <[id := p]> (streams s) else streams s)
      ∧ stream_created s s').
  { intros Hacc.
    destruct (processFrame_SynStream_accepted Input_WriteFrame id flags headers
                s Hid Hacc) as (s1 & H1 & Hp).
    exists s1, (length (heap s)). split; [done|].
    pose proof (newStream_ok _ _ _ _ _ H1) as (_ & _ & _ & _ & Hs1).
    assert (Hreg : is_Some (streams s1 !! id)).
    { rewrite Hs1. simpl. rewrite lookup_insert_eq. eauto. }
    destruct (route_registered Input_WriteFrame frame id s1 Hreg)
      as (Hf & Hlen & _).
    split; [by rewrite Hs1|].
    split; [rewrite Hs1; simpl; by rewrite lookup_app_r, Nat.sub_diag|].
    split; [by rewrite Hs1|].
    split; [done|].
    assert (Hnew : heap s1 !! length (heap s) = Some (stream.newStream id false)).
    { rewrite Hs1. simpl. by rewrite lookup_app_r, Nat.sub_diag. }
    unfold s', stream_created. fold frame in Hp. rewrite Hp, Hf, Hlen.
    split; [by rewrite Hs1|]. split.
    - intros input err Hin.
      assert (Hreg' : streams s1 !! id = Some (length (heap s))).
      { rewrite Hs1. simpl. apply lookup_insert_eq. }
      rewrite (route_writer_open Input_WriteFrame frame id s1 (length (heap s))
                 (stream.newStream id false) input err Hreg' Hnew eq_refl Hin).
      rewrite Hs1. simpl. destruct (is_nil err || is_EOF err); [done|].
      rewrite delete_insert_eq. apply delete_id. by destruct Hacc as (_ & _ & ?).
    - rewrite Hs1. simpl. rewrite length_app. simpl. lia. }
  assert (Hno : ¬ accepts_incoming s id ->
    s' = session.WriteFrame_ (RstStreamFrame id ProtocolError) s).
  { intros Hrej. by apply processFrame_SynStream_rejected. }
  split; [|split].
  - split.
    + intros Hc. destruct (decide (accepts_incoming s id)) as [|Hrej]; [done|].
      unfold stream_created in Hc. rewrite (Hno Hrej) in Hc. simpl in Hc. lia.
    + intros Hacc. by destruct (Hyes Hacc) as (? & ? & ? & ? & ? & ? & ? & ? & ? & ?).
  - intros Hacc.
    destruct (Hyes Hacc) as (s1 & p & ? & ? & ? & ? & ? & ? & ? & _). by exists s1, p.
  - intros Hrej. by rewrite (Hno Hrej).
Qed.

(** ** Sessions at the end of the 32-bit range of ids *)

Lemma OpenStream_newStream (s : Session) :
  session.OpenStream s = session.newStream (session.nextIdOut s) true s.
Proof.
  unfold session.OpenStream.
  by destruct (session.newStream _ true s) as [s' [p|err]].
Qed.

Lemma even_id_mod (k : Z) : (2 * k + 2) mod 2 = 0.
Proof. replace (2 * k + 2) with ((k + 1) * 2) by lia. apply Z.mod_mul. lia. Qed.

Lemma odd_id_mod (k : Z) : (2 * k + 3) mod 2 = 1.
Proof.
  replace (2 * k + 3) with (1 + (k + 1) * 2) by lia.
  rewrite Z.mod_add by lia. reflexivity.
Qed.

(** A server that opens a stream and closes it again, [k] times over, has
    allocated the id [2 * k]: every even id of the 32-bit range is the last
    allocated id of a session some program can see. *)
Lemma reachable_outgoing
    (Input_WriteFrame : Frame -> StreamReader -> StreamReader * option error)
    (k : Z) :
  0 <= k -> 2 * k < 2 ^ 32 ->
  ∃ s, reachable Input_WriteFrame s
    ∧ Server s = true ∧ lastStreamIdOut s = 2 * k ∧ streams s = ∅.
Proof.
  intros Hk. revert k Hk. apply (natlike_ind (fun k => 2 * k < 2 ^ 32 -> _)).
  - intros _. exists (session.NewSession (mkFramer [] never_fails []) (Some 0%nat) true).
    split; [constructor|done].
  - intros k Hk IH Hlt.
    destruct IH as (s & Hreach & Hserver & Hlast & Hstreams); [lia|].
    assert (Hnext : session.nextIdOut s = 2 * k + 2).
    { unfold session.nextIdOut. rewrite Hlast, Hserver.
      destruct (Z.eqb_spec (2 * k) 0) as [->%Z.mul_eq_0_r|_]; [done|lia|].
      apply uint32_small. lia. }
    destruct (newStream_accepts (2 * k + 2) true s) as [s1 H1].
    { unfold session.isLocalId. by rewrite Hserver, even_id_mod. }
    { done. }
    { by rewrite Hstreams. }
    pose proof (newStream_ok _ _ _ _ _ H1) as (_ & _ & _ & _ & Hs1).
    exists (apply_event Input_WriteFrame (EvCloseStream (2 * k + 2))
              (apply_event Input_WriteFrame EvOpenStream s)).
    split; [by do 2 constructor|].
    simpl. rewrite OpenStream_newStream, Hnext, H1. simpl.
    rewrite (CloseStream_present _ _ (length (heap s))).
    + rewrite Hs1. simpl. rewrite Hserver, Hstreams.
      split; [done|]. split; [lia|]. by rewrite delete_insert_eq, delete_empty.
    + rewrite Hs1. simpl. apply lookup_insert_eq.
Qed.

Lemma route_open_frame (frame : Frame) (id : Z) (s : Session) (p : ptr) :
  streams s !! id = Some p ->
  has_fin frame = false ->
  session.route reader.WriteFrame frame id s
  = set_heap (<[p := set_Input (reader.WriteFrame frame (Input (heap s !!! p))).1
                               (heap s !!! p)]> (heap s)) s.
Proof.
  intros Hp Hfin. unfold session.route. rewrite Hp.
  unfold reader.WriteFrame. rewrite Hfin. done.
Qed.

(** A server whose peer opens stream 1 and leaves it open, and then opens
    and lets close [k] further streams, has taken the id [2 * k + 1] last
    while stream 1 is still in its table. *)
Lemma reachable_incoming (k : Z) :
  0 <= k -> 2 * k + 1 < 2 ^ 32 ->
  ∃ s, reachable reader.WriteFrame s
    ∧ Server s = true ∧ lastStreamIdIn s = 2 * k + 1
    ∧ streams s = {[ 1 := 0%nat ]}
    ∧ heap s !! 0%nat = heap session_wrapped_in !! 0%nat.
Proof.
  intros Hk. revert k Hk. apply (natlike_ind (fun k => 2 * k + 1 < 2 ^ 32 -> _)).
  - intros _.
    exists (apply_event reader.WriteFrame (EvFrame (SynStreamFrame 1 0 ∅))
              (session.NewSession (mkFramer [] never_fails []) (Some 0%nat) true)).
    split; [by do 2 constructor|]. by vm_compute.
  - intros k Hk IH Hlt.
    destruct IH as (s & Hreach & Hserver & Hlast & Hstreams & Hheap); [lia|].
    set (id := 2 * k + 3).
    assert (Hacc : accepts_incoming s id).
    { split; [|split].
      - unfold session.isLocalId, id. by rewrite Hserver, odd_id_mod.
      - unfold session.nextIdIn. rewrite Hlast.
        destruct (Z.eqb_spec (2 * k + 1) 0); [lia|].
        symmetry. unfold id. replace (2 * k + 1 + 2) with (2 * k + 3) by lia.
        apply uint32_small. lia.
      - rewrite Hstreams. apply lookup_singleton_ne. unfold id. lia. }
    assert (Hid : id ≠ 0) by (unfold id; lia).
    destruct (processFrame_SynStream_accepted reader.WriteFrame id 0 ∅ s Hid Hacc)
      as (s1 & H1 & Hp).
    pose proof (newStream_ok _ _ _ _ _ H1) as (_ & _ & _ & _ & Hs1).
    set (p := length (heap s)) in *.
    assert (Hreg : streams s1 !! id = Some p).
    { rewrite Hs1. simpl. apply lookup_insert_eq. }
    rewrite (route_open_frame (SynStreamFrame id 0 ∅) _ _ p Hreg eq_refl) in Hp.
    exists (apply_event reader.WriteFrame (EvCloseStream id)
              (apply_event reader.WriteFrame (EvFrame (SynStreamFrame id 0 ∅)) s)).
    split; [by do 2 constructor|].
    simpl. rewrite Hp. rewrite (CloseStream_present _ _ p) by done.
    assert (Hp0 : p ≠ 0%nat).
    { unfold p. destruct (heap s); [discriminate|done]. }
    rewrite Hs1. simpl. rewrite Hserver, Hstreams.
    split; [done|]. split; [unfold id; lia|]. split.
    + rewrite delete_insert_eq. apply delete_id.
      apply lookup_singleton_ne. unfold id. lia.
    + rewrite list_lookup_alter_ne, list_lookup_insert_ne by done.
      rewrite lookup_app_l; [done|]. unfold p in Hp0. lia.
Qed.

(** C1 holds until the ids reach the end of the 32-bit range and fails
    there. [session_before_wrap] registers 4294967294 as locally opened, and
    the allocator then returns 0, not 4294967296; a session with the same
    role, last id and table is reached by a program that opens and closes
    2147483646 streams. *)
Theorem nextIdOut_wraps :
  (∃ s', session.newStream (2 ^ 32 - 2) true session_before_wrap = (s', inl 0%nat)
     ∧ session.nextIdOut s' = 0
     ∧ session.nextIdOut s' ≠ (2 ^ 32 - 2) + 2)
  ∧ (∃ s s' p, reachable reader.WriteFrame s
       ∧ Server s = Server session_before_wrap
       ∧ lastStreamIdOut s = lastStreamIdOut session_before_wrap
       ∧ streams s = streams session_before_wrap
       ∧ session.newStream (2 ^ 32 - 2) true s = (s', inl p)
       ∧ session.nextIdOut s' = 0).
Proof.
  split.
  - eexists. split; [reflexivity|]. split; [reflexivity|]. by vm_compute.
  - destruct (reachable_outgoing reader.WriteFrame (2 ^ 31 - 2))
      as (s & Hreach & Hserver & Hlast & Hstreams); [lia|lia|].
    destruct (newStream_accepts (2 ^ 32 - 2) true s) as [s' H'].
    { unfold session.isLocalId. by rewrite Hserver. }
    { unfold session.nextIdOut. by rewrite Hlast. }
    { by rewrite Hstreams. }
    exists s, s', (length (heap s)).
    split; [done|]. split; [done|]. split; [by rewrite Hlast|].
    split; [done|]. split; [done|].
    by rewrite (nextIdOut_after_newStream _ _ _ _ H').
Qed.

(** C2 fails where C1 fails, at the end of the 32-bit range of ids.
    [session_wrapped_idle] is a server that has taken 4294967295 as its
    last incoming id: the expected next incoming id is 4294967297, which
    no frame carries, and [nextIdIn], which adds 2 in 32 bits, expects 1.
    A SYN_STREAM frame with the id 1 is accepted there, not answered with
    RST_STREAM: a stream is created and registered under 1, nothing is
    written to the transport, and the last incoming id goes down to 1.
    A session with that role, last id and table is reached by a program
    whose peer has opened and closed 2147483648 streams, the first of them
    with the id 1: the id is then in use a second time, for a second
    stream object. *)
Theorem SynStream_id_reused_after_wrap :
  (let s := session_wrapped_idle in
   let s' := session.processFrame reader.WriteFrame (SynStreamFrame 1 0 ∅) s in
   session.isLocalId s 1 = false
   ∧ 1 ≠ lastStreamIdIn s + 2
   ∧ session.nextIdIn s = 1
   ∧ stream_created s s'
   ∧ streams s' = {[ 1 := 0%nat ]}
   ∧ Id <$> heap s' !! 0%nat = Some 1
   ∧ wlog (framer s') = []
   ∧ lastStreamIdIn s' = 1)
  ∧ (∃ s, reachable reader.WriteFrame s
       ∧ Server s = Server session_wrapped_idle
       ∧ lastStreamIdIn s = lastStreamIdIn session_wrapped_idle
       ∧ streams s = streams session_wrapped_idle
       ∧ Id <$> heap s !! 0%nat = Some 1
       ∧ let s' := session.processFrame reader.WriteFrame
                     (SynStreamFrame 1 0 ∅) s in
         stream_created s s'
         ∧ framer s' = framer s
         ∧ lastStreamIdIn s' = 1
         ∧ ∃ p, streams s' !! 1 = Some p
             ∧ p ≠ 0%nat
             ∧ Id <$> heap s' !! p = Some 1
             ∧ Id <$> heap s' !! 0%nat = Some 1).
Proof.
  split.
  - repeat split; try reflexivity. by vm_compute.
  - destruct (reachable_incoming (2 ^ 31 - 1))
      as (s0 & Hreach & Hserver & Hlast & Hstreams & Hheap); [lia|lia|].
    assert (H0 : ∃ st0, heap s0 !! 0%nat = Some st0 ∧ Id st0 = 1).
    { rewrite Hheap. eexists. split; reflexivity. }
    destruct H0 as (st0 & Hst0 & Hid0).
    assert (Hreg0 : streams s0 !! 1 = Some 0%nat) by by rewrite Hstreams.
    set (s := apply_event reader.WriteFrame (EvCloseStream 1) s0).
    assert (Hs : s = set_streams (delete 1 (streams s0))
                       (set_heap (alter close_input 0%nat (heap s0)) s0)).
    { unfold s. simpl. by rewrite (CloseStream_present _ _ _ Hreg0). }
    assert (Hs0 : heap s !! 0%nat = Some (close_input st0)).
    { rewrite Hs. simpl. rewrite list_lookup_alter_eq, Hst0. done. }
    assert (Hempty : streams s = ∅).
    { rewrite Hs. simpl. rewrite Hstreams. apply delete_singleton_eq. }
    assert (Hin : lastStreamIdIn s = 2 ^ 32 - 1).
    { rewrite Hs. simpl. rewrite Hlast. lia. }
    assert (Hsrv : Server s = true) by (by rewrite Hs).
    assert (Hacc : accepts_incoming s 1).
    { split; [|split].
      - unfold session.isLocalId. by rewrite Hsrv.
      - unfold session.nextIdIn. by rewrite Hin.
      - by rewrite Hempty. }
    assert (H1 : 1 ≠ 0) by lia.
    destruct (processFrame_SynStream_accepted reader.WriteFrame 1 0 ∅ s H1 Hacc)
      as (s1 & Hnew & Hp).
    pose proof (newStream_ok _ _ _ _ _ Hnew) as (_ & _ & _ & _ & Hs1).
    set (p := length (heap s)) in *.
    assert (Hp0 : p ≠ 0%nat).
    { unfold p. destruct (heap s); [discriminate|done]. }
    assert (Hreg : streams s1 !! 1 = Some p).
    { rewrite Hs1. simpl. apply lookup_insert_eq. }
    rewrite (route_open_frame (SynStreamFrame 1 0 ∅) _ _ p Hreg eq_refl) in Hp.
    assert (Hnewobj : heap s1 !! p = Some (stream.newStream 1 false)).
    { rewrite Hs1. simpl. by rewrite lookup_app_r, Nat.sub_diag. }
    exists s. split; [by constructor|]. split; [done|]. split; [done|].
    split; [done|]. split; [rewrite Hs0; simpl; by rewrite Hid0|].
    simpl. rewrite Hp, (list_lookup_total_correct _ _ _ Hnewobj).
    unfold stream_created. simpl.
    rewrite length_insert. rewrite Hs1. simpl.
    split; [rewrite length_app; simpl; lia|]. split; [done|]. split; [done|].
    exists p. split; [apply lookup_insert_eq|]. split; [done|]. split.
    + rewrite list_lookup_insert_eq by (rewrite length_app; simpl; lia). done.
    + rewrite list_lookup_insert_ne by done.
      rewrite lookup_app_l by (unfold p in Hp0; lia).
      rewrite Hs0. simpl. by rewrite Hid0.
Qed.

(** ** The writer *)

Lemma WriteFrame_spec (frame : Frame) (f : FrameReadWriter) :
  WriteFrame frame f
  = (mkFramer (inbound f) (wfail f)
       (wlog f ++ [(frame, wfail f (length (wlog f)))]),
     wfail f (length (wlog f))).
Proof. reflexivity. Qed.

Lemma writeFrame_spec (frame : Frame) (st : Stream) (f : FrameReadWriter) :
  writer.writeFrame frame st f
  = (match wfail f (length (wlog f)) with
     | Some _ => st
     | None => writer.set_nFramesSent (uint32 (nFramesSent (Output st) + 1)) st
     end,
     (WriteFrame frame f).1,
     wfail f (length (wlog f))).
Proof.
  unfold writer.writeFrame. rewrite WriteFrame_spec. simpl.
  by destruct (wfail f (length (wlog f))).
Qed.

(** [SendHeaders] is one call of [writeFrame], and returns its error. *)
Lemma SendHeaders_writeFrame (final : bool) (st : Stream) (f : FrameReadWriter) :
  writer.SendHeaders final st f = writer.writeFrame (header_frame final st) st f.
Proof.
  unfold writer.SendHeaders, header_frame.
  destruct (nFramesSent (Output st) =? 0); [destruct (IsMine st)|];
    rewrite writeFrame_spec; simpl;
    by destruct (wfail f (length (wlog f))).
Qed.

(** The first half of C3: on a writer that has sent no frame, [Send] is
    an implicit non-final [SendHeaders] followed by the write of the data
    frame, whatever the header send returned. *)
Lemma Send_first (data : bytes) (st : Stream) (f : FrameReadWriter) :
  nFramesSent (Output st) = 0 ->
  writer.Send data st f
  = (let '(st1, f1, _) := writer.SendHeaders false st f in
     let '(f2, err) := WriteFrame (DataFrame (Id st1) 0 data) f1 in
     (st1, f2, err)).
Proof.
  intros H0. unfold writer.Send. rewrite H0. simpl.
  by destruct (writer.SendHeaders false st f) as [[st1 f1] e].
Qed.

Lemma Send_later (data : bytes) (st : Stream) (f : FrameReadWriter) :
  nFramesSent (Output st) ≠ 0 ->
  writer.Send data st f
  = (st, (WriteFrame (DataFrame (Id st) 0 data) f).1,
     wfail f (length (wlog f))).
Proof.
  intros H0. unfold writer.Send.
  by destruct (Z.eqb_spec (nFramesSent (Output st)) 0).
Qed.

(** When the implicit header send fails with [e], [Send] still hands the
    data frame to the transport and returns the outcome of that write. *)
Lemma Send_after_failed_headers (data : bytes) (st : Stream)
    (f : FrameReadWriter) (e : error) :
  nFramesSent (Output st) = 0 ->
  (writer.SendHeaders false st f).2 = Some e ->
  ∃ f', writer.Send data st f = (st, f', wfail f (S (length (wlog f))))
    ∧ wlog f' = wlog f ++ [(header_frame false st, Some e);
                           (DataFrame (Id st) 0 data,
                            wfail f (S (length (wlog f))))].
Proof.
  intros H0 He. rewrite (Send_first _ _ _ H0).
  rewrite SendHeaders_writeFrame, writeFrame_spec in *. simpl in He.
  rewrite He. rewrite !WriteFrame_spec. simpl.
  rewrite length_app, Nat.add_1_r. simpl.
  eexists. split; [reflexivity|]. simpl.
  by rewrite <- app_assoc, He.
Qed.

(** C3 fails in its second half. A stream that has sent nothing sends "x"
    over a transport whose first write fails: the implicit [SendHeaders]
    returns the transport's error, yet [Send] returns no error, the data
    frame is the only frame that reaches the peer, and [nFramesSent] is
    still 0. *)
Theorem Send_ignores_header_error :
  nFramesSent (Output (stream.newStream 1 true)) = 0
  ∧ (writer.SendHeaders false (stream.newStream 1 true)
       framer_first_write_fails).2 = Some (ErrTransport 1)
  ∧ ∃ st' f',
      writer.Send (str "x") (stream.newStream 1 true) framer_first_write_fails
      = (st', f', None)
      ∧ emitted (wlog f') = [DataFrame 1 0 (str "x")]
      ∧ nFramesSent (Output st') = 0.
Proof.
  split; [reflexivity|]. split; [reflexivity|].
  eexists _, _. split; [reflexivity|]. split; reflexivity.
Qed.

(** *** What [nFramesSent] counts *)

Lemma emitted_app (l1 l2 : list (Frame * option error)) :
  emitted (l1 ++ l2) = emitted l1 ++ emitted l2.
Proof. unfold emitted. by rewrite filter_app, fmap_app. Qed.

Lemma count_emitted_headers_app (l1 l2 : list (Frame * option error)) :
  count_emitted_headers (l1 ++ l2)
  = (count_emitted_headers l1 + count_emitted_headers l2)%nat.
Proof.
  unfold count_emitted_headers.
  by rewrite emitted_app, filter_app, length_app.
Qed.

Lemma counted_refl (st : Stream) (f : FrameReadWriter) :
  counter_in_range st -> counted st f st f.
Proof.
  intros Hr. exists []. split; [by rewrite app_nil_r|].
  simpl. rewrite Z.add_0_r. symmetry. by apply uint32_small.
Qed.

Lemma counted_trans (st st1 st2 : Stream) (f f1 f2 : FrameReadWriter) :
  counted st f st1 f1 -> counted st1 f1 st2 f2 -> counted st f st2 f2.
Proof.
  intros (n1 & Hl1 & Hc1) (n2 & Hl2 & Hc2). exists (n1 ++ n2).
  split; [by rewrite Hl2, Hl1, app_assoc|].
  rewrite Hc2, Hc1, count_emitted_headers_app, Nat2Z.inj_add.
  unfold uint32. rewrite Zplus_mod_idemp_l. f_equal. lia.
Qed.

Lemma counted_in_range (st st' : Stream) (f f' : FrameReadWriter) :
  counted st f st' f' -> counter_in_range st'.
Proof. intros (n & _ & Hc). unfold counter_in_range. rewrite Hc. apply uint32_range. Qed.

Lemma writeFrame_counted (frame : Frame) (st : Stream) (f : FrameReadWriter) :
  is_header_frame frame = true ->
  counter_in_range st ->
  counted st f (writer.writeFrame frame st f).1.1 (writer.writeFrame frame st f).1.2.
Proof.
  intros Hh Hr. rewrite writeFrame_spec. simpl.
  exists [(frame, wfail f (length (wlog f)))]. split; [done|].
  unfold count_emitted_headers, emitted.
  destruct (wfail f (length (wlog f))) as [e|]; simpl.
  - rewrite Z.add_0_r. symmetry. by apply uint32_small.
  - by rewrite (filter_cons_True _ frame []).
Qed.

Lemma header_frame_is_header (final : bool) (st : Stream) :
  is_header_frame (header_frame final st) = true.
Proof.
  unfold header_frame.
  by destruct (nFramesSent (Output st) =? 0); [destruct (IsMine st)|].
Qed.

Lemma SendHeaders_counted (final : bool) (st : Stream) (f : FrameReadWriter) :
  counter_in_range st ->
  counted st f (writer.SendHeaders final st f).1.1 (writer.SendHeaders final st f).1.2.
Proof.
  intros Hr. rewrite SendHeaders_writeFrame.
  apply writeFrame_counted; [apply header_frame_is_header|done].
Qed.

Lemma data_write_counted (id : Z) (data : bytes) (st : Stream)
    (f : FrameReadWriter) :
  counter_in_range st ->
  counted st f st (WriteFrame (DataFrame id 0 data) f).1.
Proof.
  intros Hr. exists [(DataFrame id 0 data, wfail f (length (wlog f)))].
  split; [done|].
  unfold count_emitted_headers, emitted.
  destruct (wfail f (length (wlog f))) as [e|]; simpl;
    rewrite Z.add_0_r; symmetry; by apply uint32_small.
Qed.

Lemma Send_counted (data : bytes) (st : Stream) (f : FrameReadWriter) :
  counter_in_range st ->
  counted st f (writer.Send data st f).1.1 (writer.Send data st f).1.2.
Proof.
  intros Hr. unfold writer.Send.
  destruct (nFramesSent (Output st) =? 0).
  - pose proof (SendHeaders_counted false st f Hr) as Hh.
    destruct (writer.SendHeaders false st f) as [[st1 f1] e]. simpl in *.
    eapply counted_trans; [exact Hh|].
    apply data_write_counted. by eapply counted_in_range.
  - by apply data_write_counted.
Qed.

Lemma SendLines_counted (fuel : nat) (lines : LineSource) (st : Stream)
    (f : FrameReadWriter) :
  counter_in_range st ->
  match writer.SendLines fuel lines st f with
  | Some (_, st', f', _) => counted st f st' f'
  | None => True
  end.
Proof.
  revert lines st f. induction fuel as [|fuel IH]; intros lines st f Hr; [done|].
  simpl. destruct (ReadLine lines) as [[line err] lines'].
  destruct (is_EOF err); [by apply counted_refl|].
  destruct (negb (is_nil err)); [by apply counted_refl|].
  pose proof (Send_counted line st f Hr) as Hs.
  destruct (writer.Send line st f) as [[st1 f1] serr]. simpl in Hs.
  destruct (negb (is_nil serr)); [done|].
  specialize (IH lines' st1 f1 (counted_in_range _ _ _ _ Hs)).
  destruct (writer.SendLines fuel lines' st1 f1) as [[[[? st2] f2] ?]|]; [|done].
  by eapply counted_trans.
Qed.

(** [SendLines] returns once it has read every record and the error that
    ends the source. *)
Lemma SendLines_returns (fuel : nat) (lines : LineSource) (st : Stream)
    (f : FrameReadWriter) :
  (length (records lines) < fuel)%nat ->
  is_Some (writer.SendLines fuel lines st f).
Proof.
  revert lines st f. induction fuel as [|fuel IH]; intros lines st f Hlt; [lia|].
  simpl. unfold ReadLine.
  destruct lines as [[|line rest] e]; simpl in *.
  - by destruct e.
  - destruct (writer.Send line st f) as [[st1 f1] serr].
    destruct (negb (is_nil serr)); [done|]. apply IH. simpl. lia.
Qed.

Lemma do_call_counted (c : writer_call) (st : Stream) (f : FrameReadWriter) :
  counter_in_range st ->
  ∃ st' f' err, do_call c st f = Some (st', f', err) ∧ counted st f st' f'.
Proof.
  intros Hr. destruct c as [data|final|lines]; unfold do_call.
  - pose proof (Send_counted data st f Hr).
    destruct (writer.Send data st f) as [[st' f'] err]. by eexists _, _, _.
  - pose proof (SendHeaders_counted final st f Hr).
    destruct (writer.SendHeaders final st f) as [[st' f'] err]. by eexists _, _, _.
  - pose proof (SendLines_counted (S (length (records lines))) lines st f Hr) as Hc.
    destruct (SendLines_returns (S (length (records lines))) lines st f)
      as [[[[? st'] f'] err] Hsome]; [lia|].
    rewrite Hsome in Hc |- *. by eexists _, _, _.
Qed.

(** After any sequence of writer calls, [nFramesSent] has grown by the
    number of SYN_STREAM, SYN_REPLY and HEADERS frames that were written
    without error, and by nothing else: a failed write and a data frame
    leave it as it is. *)
Lemma nFramesSent_counts_header_frames (cs : list writer_call) (st : Stream)
    (f : FrameReadWriter) :
  counter_in_range st ->
  ∃ st' f', do_calls cs st f = Some (st', f') ∧ counted st f st' f'.
Proof.
  revert st f. induction cs as [|c cs IH]; intros st f Hr; simpl.
  - eexists _, _. split; [done|]. by apply counted_refl.
  - destruct (do_call_counted c st f Hr) as (st1 & f1 & err & -> & Hc).
    destruct (IH st1 f1 (counted_in_range _ _ _ _ Hc)) as (st' & f' & -> & Hc').
    eexists _, _. split; [done|]. by eapply counted_trans.
Qed.

(** C4 fails for data frames. One [Send] on a new stream over a transport
    that never fails puts two frames on the wire, the SYN_STREAM and the
    data frame, and leaves [nFramesSent] at 1: the data frame is written
    past [writeFrame]. *)
Theorem nFramesSent_misses_data_frames :
  ∃ st' f',
    do_calls [CallSend (str "x")] (stream.newStream 1 true) framer_ok = Some (st', f')
    ∧ emitted (wlog f') = [SynStreamFrame 1 0 ∅; DataFrame 1 0 (str "x")]
    ∧ count_emitted (wlog f') = 2%nat
    ∧ nFramesSent (Output st') = 1.
Proof.
  eexists _, _. split; [reflexivity|].
  split; [by vm_compute|]. split; by vm_compute.
Qed.

(** *** [SendLines] *)

Lemma Send_wfail (data : bytes) (st : Stream) (f : FrameReadWriter) :
  wfail (writer.Send data st f).1.2 = wfail f.
Proof.
  unfold writer.Send. destruct (nFramesSent (Output st) =? 0); [|done].
  rewrite SendHeaders_writeFrame, writeFrame_spec. done.
Qed.

Lemma Send_ok (data : bytes) (st : Stream) (f : FrameReadWriter) :
  (∀ k, wfail f k = None) -> (writer.Send data st f).2 = None.
Proof.
  intros Hok. unfold writer.Send. destruct (nFramesSent (Output st) =? 0).
  - rewrite SendHeaders_writeFrame, writeFrame_spec. simpl. apply Hok.
  - simpl. apply Hok.
Qed.

(** The part of C5 that holds: while the sends succeed, [SendLines] sends
    every record, in order, and returns [nil] when the source ends with
    [io.EOF] and the source's error otherwise. *)
Lemma SendLines_all_sent (lines : list bytes) (e : error) (st : Stream)
    (f : FrameReadWriter) :
  (∀ k, wfail f k = None) ->
  writer.SendLines (S (length lines)) (mkLines lines e) st f
  = Some (mkLines [] e, (send_all lines st f).1, (send_all lines st f).2,
          match e with io_EOF => None | _ => Some e end).
Proof.
  revert st f. induction lines as [|line lines IH]; intros st f Hok.
  - simpl. by destruct e.
  - change (writer.SendLines (S (length (line :: lines))) (mkLines (line :: lines) e) st f)
      with (let '(st, f, serr) := writer.Send line st f in
            if negb (is_nil serr) then Some (mkLines lines e, st, f, None)
            else writer.SendLines (S (length lines)) (mkLines lines e) st f).
    pose proof (Send_ok line st f Hok) as Herr.
    pose proof (Send_wfail line st f) as Hw.
    unfold send_all. simpl. fold (send_all lines).
    destruct (writer.Send line st f) as [[st1 f1] serr]. simpl in *. subst serr.
    simpl. apply IH. intros k. rewrite Hw. apply Hok.
Qed.

(** When a send fails, [SendLines] stops at once, and returns [nil]. *)
Lemma SendLines_send_fails (fuel : nat) (line : bytes) (lines : list bytes)
    (e : error) (st : Stream) (f : FrameReadWriter) :
  (writer.Send line st f).2 ≠ None ->
  writer.SendLines (S fuel) (mkLines (line :: lines) e) st f
  = Some (mkLines lines e, (writer.Send line st f).1.1,
          (writer.Send line st f).1.2, None).
Proof.
  intros Hfail. simpl.
  destruct (writer.Send line st f) as [[st1 f1] [serr|]]; [done|]. by destruct Hfail.
Qed.

(** C5 fails when a send fails. Over a transport on which every write
    fails, [Send] of the first record returns the transport's error;
    [SendLines] stops there, with the second record unread, but returns
    [nil], not that error. *)
Theorem SendLines_loses_send_error :
  (writer.Send (str "a") (stream.newStream 1 true) framer_down).2
  = Some (ErrTransport 1)
  ∧ ∃ lines' st' f',
      writer.SendLines 3 (mkLines [str "a"; str "b"] io_EOF)
        (stream.newStream 1 true) framer_down
      = Some (lines', st', f', None)
      ∧ records lines' = [str "b"].
Proof.
  split; [reflexivity|]. eexists _, _, _. split; reflexivity.
Qed.

(** ** The reader *)

(** C10: when the reader's header map already holds a non-empty value for
    the key, [WaitForHeader] returns that value and no error at once: the
    reader, its queue included, is as before, whatever the queue holds. *)
Theorem WaitForHeader_present (CanonicalMIMEHeaderKey : string -> string)
    (fuel : nat) (key : string) (r : StreamReader) :
  reader.Get CanonicalMIMEHeaderKey (reader.Headers r) key ≠ ""%string ->
  reader.WaitForHeader CanonicalMIMEHeaderKey fuel key r
  = Some (reader.Get CanonicalMIMEHeaderKey (reader.Headers r) key, None, r).
Proof.
  intros Hset.
  destruct fuel; simpl;
    by destruct (String.eqb_spec
                   (reader.Get CanonicalMIMEHeaderKey (reader.Headers r) key) "").
Qed.

Lemma WaitForHeader_present_witness :
  reader.Get id (reader.Headers reader_with_status) "Status" ≠ ""%string
  ∧ reader.WaitForHeader id 0 "Status" reader_with_status
    = Some ("200"%string, None, reader_with_status).
Proof.
  assert (H : reader.Get id (reader.Headers reader_with_status) "Status"
              ≠ ""%string).
  { vm_compute. discriminate. }
  exact (conj H (WaitForHeader_present id 0 "Status" reader_with_status H)).
Defined.

(** *** [Pipe] *)

Lemma updateHeaders_lookup (dst src : Header) (key : string) (v : list string) :
  src !! key = Some v -> updateHeaders dst src !! key = Some v.
Proof. intros H. unfold updateHeaders. by apply lookup_union_Some_l. Qed.

(** C8: a reader whose queue holds a header message with A = 1, then the
    data messages "x" and "y", and is closed, is piped into a writer.
    In its first three turns [Pipe] puts A = 1 into the writer's headers
    and calls [SendHeaders false], then [Send "x"], then [Send "y"], in
    that order and nothing else; when no write fails and the counter is
    not at its last value, the frames written are the writer's header
    frame with A = 1 and the two data frames. In the fourth turn the
    queue answers with the end-of-stream error and no message, and
    [Receive] panics: [Pipe] does not get to its test for [io.EOF] and
    does not return, whatever the number of turns it is given. *)
Theorem Pipe_panics_at_end_of_stream (fuel : nat) (r : StreamReader) (w : Stream)
    (f : FrameReadWriter) :
  items (data r) = [mkMessage None (Some {[ "A"%string := ["1"%string] ]});
                    mkMessage (Some (str "x")) None;
                    mkMessage (Some (str "y")) None] ->
  mq_closed (data r) = true ->
  let w0 := writer.set_headers
              (updateHeaders (writer.Headers w) {[ "A"%string := ["1"%string] ]}) w in
  let '(w1, f1, _) := writer.SendHeaders false w0 f in
  let '(w2, f2, _) := writer.Send (str "x") w1 f1 in
  let '(w3, f3, _) := writer.Send (str "y") w2 f2 in
  let r3 := mkReader (reader_headers r) (mkMQ [] true) in
  reader.Pipe (3 + fuel) r w f = reader.Pipe fuel r3 w3 f3
  ∧ writer.Headers w0 !! "A"%string = Some ["1"%string]
  ∧ ((∀ k, wfail f k = None) ->
     0 <= nFramesSent (Output w) < 2 ^ 32 - 1 ->
     wlog f3 = wlog f ++ [(header_frame false w0, None);
                          (DataFrame (Id w) 0 (str "x"), None);
                          (DataFrame (Id w) 0 (str "y"), None)])
  ∧ mq.Receive (data r3) = Some (None, Some io_EOF, data r3)
  ∧ reader.Receive r3 = Panics
  ∧ reader.Pipe fuel r w f = None.
Proof.
  intros Hitems Hclosed w0.
  destruct r as [hs [its c]]. simpl in Hitems, Hclosed. subst its c.
  destruct (writer.SendHeaders false w0 f) as [[w1 f1] e1] eqn:E1.
  destruct (writer.Send (str "x") w1 f1) as [[w2 f2] e2] eqn:E2.
  destruct (writer.Send (str "y") w2 f2) as [[w3 f3] e3] eqn:E3.
  split; [|split; [|split; [|split; [|split]]]]; try reflexivity.
  - simpl. fold w0. rewrite E1, E2, E3. done.
  - apply updateHeaders_lookup. apply lookup_singleton_eq.
  - intros Hok Hn.
    rewrite SendHeaders_writeFrame, writeFrame_spec, Hok in E1.
    injection E1 as <- <- _.
    assert (Hne : uint32 (nFramesSent (Output w) + 1) ≠ 0).
    { rewrite uint32_small; lia. }
    rewrite Send_later in E2 by done. injection E2 as <- <- _.
    rewrite Send_later in E3 by done. injection E3 as _ <- _.
    simpl. rewrite !Hok. by rewrite <- !app_assoc.
  - do 4 (destruct fuel as [|fuel]; [simpl; fold w0; by rewrite ?E1, ?E2, ?E3|]).
    simpl. fold w0. by rewrite E1, E2, E3.
Qed.

Lemma Pipe_panics_at_end_of_stream_witness :
  reader.Pipe 7 reader_A_x_y (stream.newStream 3 false) framer_ok
  = reader.Pipe 4 (mkReader ∅ (mkMQ [] true))
      (writer.set_nFramesSent 1
         (writer.set_headers {[ "A"%string := ["1"%string] ]}
            (stream.newStream 3 false)))
      (mkFramer [] never_fails
         [(SynReplyFrame 3 0 {[ "A"%string := ["1"%string] ]}, None);
          (DataFrame 3 0 (str "x"), None);
          (DataFrame 3 0 (str "y"), None)])
  ∧ reader.Receive (mkReader ∅ (mkMQ [] true)) = Panics
  ∧ reader.Pipe 4 reader_A_x_y (stream.newStream 3 false) framer_ok = None.
Proof.
  pose proof (Pipe_panics_at_end_of_stream 4 reader_A_x_y
                (stream.newStream 3 false) framer_ok eq_refl eq_refl) as H.
  exact (conj (proj1 H) (conj (proj1 (proj2 (proj2 (proj2 (proj2 H)))))
                              (proj2 (proj2 (proj2 (proj2 (proj2 H))))))).
Defined.

(** ** Teardown of the session *)

Lemma CloseStreams_closed (ids : list Z) (s : Session) :
  closed (session.CloseStreams ids s) = closed s.
Proof.
  revert s. induction ids as [|id ids IH]; intros s; [done|].
  simpl. fold (session.CloseStreams ids). by rewrite IH, CloseStream_closed.
Qed.

Lemma CloseStreams_framer (ids : list Z) (s : Session) :
  framer (session.CloseStreams ids s) = framer s.
Proof.
  revert s. induction ids as [|id ids IH]; intros s; [done|].
  simpl. fold (session.CloseStreams ids). by rewrite IH, CloseStream_framer.
Qed.

Lemma CloseStreams_last_ids (ids : list Z) (s : Session) :
  lastStreamIdIn (session.CloseStreams ids s) = lastStreamIdIn s
  ∧ lastStreamIdOut (session.CloseStreams ids s) = lastStreamIdOut s
  ∧ Server (session.CloseStreams ids s) = Server s.
Proof.
  revert s. induction ids as [|id ids IH]; intros s; [done|].
  simpl. fold (session.CloseStreams ids).
  destruct (IH (session.CloseStream id s).1) as (-> & -> & ->).
  apply CloseStream_last_ids.
Qed.

Lemma CloseStreams_handler (ids : list Z) (s : Session) :
  handler (session.CloseStreams ids s) = handler s.
Proof.
  revert s. induction ids as [|id ids IH]; intros s; [done|].
  simpl. fold (session.CloseStreams ids). rewrite IH.
  unfold session.CloseStream. by destruct (streams s !! id).
Qed.

(** The table after the loop: an id is left iff it was there and was not
    visited. *)
Lemma CloseStreams_streams (ids : list Z) (s : Session) (id : Z) :
  streams (session.CloseStreams ids s) !! id
  = if decide (id ∈ ids) then None else streams s !! id.
Proof.
  revert s. induction ids as [|i ids IH]; intros s.
  - destruct (decide (id ∈ [])) as [Hin|]; [by apply elem_of_nil in Hin|done].
  - change (session.CloseStreams (i :: ids) s)
      with (session.CloseStreams ids (session.CloseStream i s).1).
    rewrite IH, CloseStream_streams.
    destruct (decide (id ∈ ids)) as [Hin|Hnin].
    + rewrite decide_True; [done|by right].
    + destruct (decide (i = id)) as [->|Hne].
      * rewrite lookup_delete_eq. rewrite decide_True; [done|by left].
      * rewrite lookup_delete_ne by done.
        rewrite decide_False; [done|].
        intros [Heq|Hin]%elem_of_cons; [by subst|done].
Qed.

(** The stream objects after the loop: an object is as before, or its
    input is closed; it is closed when an id that was visited pointed to
    it. *)
Lemma CloseStreams_heap_cases (ids : list Z) (s : Session) (p : ptr) :
  heap (session.CloseStreams ids s) !! p = heap s !! p
  ∨ heap (session.CloseStreams ids s) !! p = close_input <$> heap s !! p.
Proof.
  revert s. induction ids as [|i ids IH]; intros s; [by left|].
  simpl. fold (session.CloseStreams ids).
  destruct (IH (session.CloseStream i s).1) as [-> | ->];
    rewrite CloseStream_heap; case_decide; eauto.
  right. destruct (heap s !! p); [|done]. simpl. by rewrite close_input_idemp.
Qed.

Lemma CloseStreams_heap_closed (ids : list Z) (s : Session) (id : Z) (p : ptr) :
  id ∈ ids ->
  streams s !! id = Some p ->
  heap (session.CloseStreams ids s) !! p = close_input <$> heap s !! p.
Proof.
  revert s. induction ids as [|i ids IH]; intros s Hin Hp.
  { by apply elem_of_nil in Hin. }
  simpl. fold (session.CloseStreams ids).
  destruct (decide (i = id)) as [->|Hne].
  - destruct (CloseStreams_heap_cases ids (session.CloseStream id s).1 p)
      as [-> | ->]; rewrite CloseStream_heap, decide_True by done; [done|].
    destruct (heap s !! p); [|done]. simpl. by rewrite close_input_idemp.
  - rewrite (IH (session.CloseStream i s).1).
    + rewrite CloseStream_heap. case_decide; [|done].
      destruct (heap s !! p); [|done]. simpl. by rewrite close_input_idemp.
    + apply elem_of_cons in Hin as [->|Hin]; done.
    + by rewrite CloseStream_streams, lookup_delete_ne.
Qed.

Lemma CloseStreams_heap_other (ids : list Z) (s : Session) (p : ptr) :
  (∀ id, id ∈ ids -> streams s !! id ≠ Some p) ->
  heap (session.CloseStreams ids s) !! p = heap s !! p.
Proof.
  revert s. induction ids as [|i ids IH]; intros s Hno; [done|].
  simpl. fold (session.CloseStreams ids). rewrite IH.
  - rewrite CloseStream_heap, decide_False; [done|]. apply Hno. by left.
  - intros id Hin. rewrite CloseStream_streams.
    destruct (decide (i = id)) as [->|Hne].
    + by rewrite lookup_delete_eq.
    + rewrite lookup_delete_ne by done. apply Hno. by right.
Qed.

Lemma keys_of_table (m : gmap Z ptr) (id : Z) :
  id ∈ (map_to_list m).*1 ↔ is_Some (m !! id).
Proof.
  rewrite list_elem_of_fmap. split.
  - intros ([i p] & -> & Hin). apply elem_of_map_to_list in Hin. eauto.
  - intros [p Hp]. exists (id, p). split; [done|]. by apply elem_of_map_to_list.
Qed.

(** [Close] sets the flag, empties the table, and closes the input of
    every stream the table pointed to. *)
Lemma Close_spec (s : Session) :
  closed (session.Close s) = true
  ∧ streams (session.Close s) = ∅
  ∧ session.NStreams (session.Close s) = 0%nat
  ∧ framer (session.Close s) = framer s
  ∧ ∀ id p st, streams s !! id = Some p -> heap s !! p = Some st ->
      heap (session.Close s) !! p = Some (close_input st).
Proof.
  unfold session.Close.
  assert (Hempty : streams (session.CloseStreams
                              (map_to_list (streams (set_closed true s))).*1
                              (set_closed true s)) = ∅).
  { apply map_eq. intros id. rewrite CloseStreams_streams, lookup_empty.
    case_decide as Hin; [done|].
    rewrite keys_of_table in Hin. by apply eq_None_not_Some. }
  split; [by rewrite CloseStreams_closed|].
  split; [done|].
  split; [unfold session.NStreams; by rewrite Hempty|].
  split; [by rewrite CloseStreams_framer|].
  intros id p st Hp Hst.
  rewrite (CloseStreams_heap_closed _ _ id p).
  - simpl. by rewrite Hst.
  - apply keys_of_table. simpl. eauto.
  - done.
Qed.

(** The order in which [Close] visits the table does not matter: any list
    of ids that holds every registered id leaves the same session. *)
Lemma Close_any_order (ids : list Z) (s : Session) :
  (∀ id, is_Some (streams s !! id) -> id ∈ ids) ->
  session.CloseStreams ids (set_closed true s) = session.Close s.
Proof.
  intros Hall. unfold session.Close.
  set (keys := (map_to_list (streams (set_closed true s))).*1).
  set (s0 := set_closed true s).
  assert (Hkeys : ∀ id, is_Some (streams s0 !! id) -> id ∈ keys).
  { intros id. apply keys_of_table. }
  assert (Hstreams : ∀ l, (∀ id, is_Some (streams s0 !! id) -> id ∈ l) ->
                          streams (session.CloseStreams l s0) = ∅).
  { intros l Hl. apply map_eq. intros id.
    rewrite CloseStreams_streams, lookup_empty.
    case_decide as Hin; [done|].
    apply eq_None_not_Some. intros Hs. by apply Hin, Hl. }
  assert (Hheap : heap (session.CloseStreams ids s0)
                  = heap (session.CloseStreams keys s0)).
  { apply list_eq. intros p.
    destruct (decide (p ∈ (map_to_list (streams s0)).*2)) as [Hin|Hnin].
    - apply list_elem_of_fmap in Hin as ([id q] & -> & Hin).
      apply elem_of_map_to_list in Hin. simpl.
      rewrite (CloseStreams_heap_closed ids s0 id q),
              (CloseStreams_heap_closed keys s0 id q); eauto.
    - rewrite !CloseStreams_heap_other; [done| |];
        intros id _ Hp; apply Hnin; apply list_elem_of_fmap;
        exists (id, p); split; try done; by apply elem_of_map_to_list. }
  pose proof (CloseStreams_closed ids s0) as H1.
  pose proof (CloseStreams_closed keys s0) as H2.
  pose proof (CloseStreams_framer ids s0) as H3.
  pose proof (CloseStreams_framer keys s0) as H4.
  pose proof (CloseStreams_handler ids s0) as H5.
  pose proof (CloseStreams_handler keys s0) as H6.
  pose proof (CloseStreams_last_ids ids s0) as (H7 & H8 & H9).
  pose proof (CloseStreams_last_ids keys s0) as (H10 & H11 & H12).
  pose proof (Hstreams ids Hall) as H13.
  pose proof (Hstreams keys Hkeys) as H14.
  destruct (session.CloseStreams ids s0), (session.CloseStreams keys s0).
  simpl in *. congruence.
Qed.

(** ** The receive loop *)

Section receive.

Variable Input_WriteFrame : Frame -> StreamReader -> StreamReader * option error.

Lemma route_inbound (frame : Frame) (id : Z) (s : Session) :
  inbound (framer (session.route Input_WriteFrame frame id s))
  = inbound (framer s).
Proof.
  unfold session.route. destruct (streams s !! id); [|done].
  destruct (Input_WriteFrame frame _) as [input err].
  destruct (is_EOF err); [destruct (writer_closed _)|destruct (negb (is_nil err))];
    by rewrite ?CloseStream_framer.
Qed.

Lemma processFrame_inbound (frame : Frame) (s : Session) :
  inbound (framer (session.processFrame Input_WriteFrame frame s))
  = inbound (framer s).
Proof.
  unfold session.processFrame.
  destruct (negb (GetStreamId frame =? 0)); [|done].
  destruct (is_SynStreamFrame frame); [|apply route_inbound].
  destruct (session.newStream (GetStreamId frame) false s) as [s1 [p|err]] eqn:H.
  - rewrite route_inbound.
    apply newStream_ok in H as (_ & _ & _ & _ & ->). done.
  - by rewrite (newStream_error _ _ _ _ _ H).
Qed.

(** The loop processes the frames that arrive, in order, and ends with
    [Close] and the error at the first read that fails. *)
Lemma receive_loop_read_error (frames : list Frame) (err : error)
    (rest : list (Frame + error)) (fuel : nat) (s : Session) :
  inbound (framer s) = (inl <$> frames) ++ inr err :: rest ->
  (length frames < fuel)%nat ->
  session.receive_loop Input_WriteFrame fuel s
  = Some (session.Close (pop_inbound (pump Input_WriteFrame frames s)), Some err).
Proof.
  revert fuel s. induction frames as [|frame frames IH]; intros fuel s Hin Hlt;
    (destruct fuel as [|fuel]; [simpl in Hlt; lia|]); simpl.
  - unfold ReadFrame. rewrite Hin. simpl. unfold pop_inbound. by rewrite Hin.
  - unfold ReadFrame. rewrite Hin. simpl.
    replace (set_framer _ s) with (pop_inbound s)
      by (unfold pop_inbound; by rewrite Hin).
    apply IH; [|simpl in Hlt; lia].
    rewrite processFrame_inbound. unfold pop_inbound. simpl. by rewrite Hin.
Qed.

End receive.

(** C7: the receive loop has processed the frames that arrived, and the
    next read of the transport fails. Then [run] returns that error, and
    with [at_failure] the session at that moment: [Close] has run on it,
    the closed flag is set, [Close] has called [CloseStream] for every id
    of its table, no stream is left in the table, and the input of every
    stream that was registered is closed. (When the session has no
    handler, [run] first writes GOAWAY, and reaches the loop when that
    write succeeds.) *)
Theorem run_read_error
    (Input_WriteFrame : Frame -> StreamReader -> StreamReader * option error)
    (fuel : nat) (s : Session) (frames : list Frame) (err : error)
    (rest : list (Frame + error)) :
  inbound (framer s) = (inl <$> frames) ++ inr err :: rest ->
  (length frames < fuel)%nat ->
  (handler s = None -> wfail (framer s) (length (wlog (framer s))) = None) ->
  let started := match handler s with
                 | None => session.WriteFrame_ (GoAwayFrame 0) s
                 | Some _ => s
                 end in
  let at_failure := pop_inbound (pump Input_WriteFrame frames started) in
  session.run Input_WriteFrame fuel s = Some (session.Close at_failure, Some err)
  ∧ session.Closed (session.Close at_failure) = true
  ∧ session.Close at_failure
    = session.CloseStreams (map_to_list (streams at_failure)).*1
        (set_closed true at_failure)
  ∧ (∀ id, is_Some (streams at_failure !! id) ->
       id ∈ (map_to_list (streams at_failure)).*1)
  ∧ streams (session.Close at_failure) = ∅
  ∧ session.NStreams (session.Close at_failure) = 0%nat
  ∧ (∀ id p st, streams at_failure !! id = Some p ->
       heap at_failure !! p = Some st ->
       heap (session.Close at_failure) !! p = Some (close_input st)
       ∧ reader.Closed (Input (close_input st)) = true).
Proof.
  intros Hin Hlt Hgo started at_failure.
  destruct (Close_spec at_failure) as (Hc & Hs & Hn & _ & Hh).
  split; [|split; [done|split; [done|split; [|split; [done|split; [done|]]]]]].
  - unfold session.run, at_failure, started.
    destruct (handler s) as [h|].
    + by apply (receive_loop_read_error _ frames err rest).
    + unfold session.WriteFrame_. rewrite WriteFrame_spec. simpl.
      rewrite Hgo by done. simpl.
      by apply (receive_loop_read_error _ frames err rest).
  - intros id. apply keys_of_table.
  - intros id p st Hp Hst. split; [by eapply Hh|done].
Qed.

Lemma run_read_error_witness :
  session.run reader.WriteFrame 3 session_two_frames_then_error
  = Some (session.Close
            (pop_inbound
               (pump reader.WriteFrame
                  [SynStreamFrame 1 0 ∅; DataFrame 1 0 (str "x")]
                  session_two_frames_then_error)),
          Some (ErrTransport 9))
  ∧ streams (session.Close
               (pop_inbound
                  (pump reader.WriteFrame
                     [SynStreamFrame 1 0 ∅; DataFrame 1 0 (str "x")]
                     session_two_frames_then_error))) = ∅.
Proof.
  assert (Hgo : handler session_two_frames_then_error = None ->
                wfail (framer session_two_frames_then_error)
                  (length (wlog (framer session_two_frames_then_error))) = None).
  { intros _. reflexivity. }
  pose proof (run_read_error reader.WriteFrame 3 session_two_frames_then_error
                [SynStreamFrame 1 0 ∅; DataFrame 1 0 (str "x")]
                (ErrTransport 9) [] eq_refl (le_n 3) Hgo) as H.
  exact (conj (proj1 H) (proj1 (proj2 (proj2 (proj2 (proj2 H)))))).
Defined.

(** ** The table points into the heap

    In every session a program can see, the pointers of the table refer to
    stream objects that exist, so [route] always finds the object it
    updates. *)

Lemma CloseStream_table_valid (id : Z) (s : Session) :
  table_valid s -> table_valid (session.CloseStream id s).1.
Proof.
  intros Hv i p. rewrite CloseStream_streams, CloseStream_heap_length.
  intros [_ Hp]%lookup_delete_Some. by eapply Hv.
Qed.

Lemma CloseStreams_table_valid (ids : list Z) (s : Session) :
  table_valid s -> table_valid (session.CloseStreams ids s).
Proof.
  revert s. induction ids as [|id ids IH]; intros s Hv; [done|].
  apply IH. by apply CloseStream_table_valid.
Qed.

Lemma newStream_table_valid (id : Z) (local : bool) (s : Session) :
  table_valid s -> table_valid (session.newStream id local s).1.
Proof.
  intros Hv.
  destruct (session.newStream id local s) as [s' [p|err]] eqn:H.
  - apply newStream_ok in H as (_ & _ & _ & -> & ->).
    intros i q. destruct local; simpl; rewrite length_app; simpl;
      (intros [[_ <-]|[_ Hq]]%lookup_insert_Some; [lia|]);
      apply Hv in Hq; lia.
  - by rewrite (newStream_error _ _ _ _ _ H).
Qed.

Lemma route_table_valid
    (Input_WriteFrame : Frame -> StreamReader -> StreamReader * option error)
    (frame : Frame) (id : Z) (s : Session) :
  table_valid s -> table_valid (session.route Input_WriteFrame frame id s).
Proof.
  intros Hv. unfold session.route. destruct (streams s !! id) as [p|]; [|done].
  destruct (Input_WriteFrame frame _) as [input err].
  set (s1 := set_heap _ s).
  assert (Hv1 : table_valid s1).
  { intros i q Hq. unfold s1. simpl. rewrite length_insert. by eapply Hv. }
  destruct (is_EOF err); [destruct (writer_closed _)|destruct (negb (is_nil err))];
    try done; by apply CloseStream_table_valid.
Qed.

Lemma processFrame_table_valid
    (Input_WriteFrame : Frame -> StreamReader -> StreamReader * option error)
    (frame : Frame) (s : Session) :
  table_valid s -> table_valid (session.processFrame Input_WriteFrame frame s).
Proof.
  intros Hv. unfold session.processFrame.
  destruct (negb (GetStreamId frame =? 0)); [|done].
  destruct (is_SynStreamFrame frame); [|by apply route_table_valid].
  pose proof (newStream_table_valid (GetStreamId frame) false s Hv) as Hv1.
  destruct (session.newStream (GetStreamId frame) false s) as [s1 [p|err]] eqn:H.
  - by apply route_table_valid.
  - by rewrite (newStream_error _ _ _ _ _ H) in *.
Qed.

Lemma reachable_table_valid
    (Input_WriteFrame : Frame -> StreamReader -> StreamReader * option error)
    (s : Session) :
  reachable Input_WriteFrame s -> table_valid s.
Proof.
  induction 1 as [framer handler server|ev s _ IH].
  - intros id p Hp. simpl in Hp. by rewrite lookup_empty in Hp.
  - destruct ev as [|id| |frame]; simpl.
    + rewrite OpenStream_newStream. by apply newStream_table_valid.
    + by apply CloseStream_table_valid.
    + by apply CloseStreams_table_valid.
    + by apply processFrame_table_valid.
Qed.

(** ** Before the ids wrap

    While the peer's ids have not come to the end of the 32-bit range, the
    expected next incoming id is never in the table, so that the
    acceptance of a SYN_STREAM is decided by parity and sequence alone. *)

Lemma isLocalId_Server (s s' : Session) (id : Z) :
  Server s' = Server s -> session.isLocalId s' id = session.isLocalId s id.
Proof. intros H. unfold session.isLocalId. by rewrite H. Qed.

Lemma incoming_bounded_shrink (s s' : Session) :
  Server s' = Server s ->
  lastStreamIdIn s' = lastStreamIdIn s ->
  (∀ id p, streams s' !! id = Some p ->
     streams s !! id = Some p ∨ session.isLocalId s id = true) ->
  incoming_bounded s -> incoming_bounded s'.
Proof.
  intros Hserver Hlast Hsub (Hr & Hpar & Hreg).
  unfold incoming_bounded. rewrite Hlast.
  split; [done|]. split.
  - intros Hne. rewrite (isLocalId_Server _ _ _ Hserver). by apply Hpar.
  - intros id p Hp Hl. rewrite (isLocalId_Server _ _ _ Hserver) in Hl.
    destruct (Hsub id p Hp) as [Hold|Hloc]; [by eapply Hreg|congruence].
Qed.

Lemma CloseStream_incoming_bounded (id : Z) (s : Session) :
  incoming_bounded s -> incoming_bounded (session.CloseStream id s).1.
Proof.
  destruct (CloseStream_last_ids id s) as (Hin & _ & Hserver).
  apply incoming_bounded_shrink; [done|done|].
  intros i p. rewrite CloseStream_streams. intros [_ ?]%lookup_delete_Some. by left.
Qed.

Lemma CloseStreams_incoming_bounded (ids : list Z) (s : Session) :
  incoming_bounded s -> incoming_bounded (session.CloseStreams ids s).
Proof.
  revert s. induction ids as [|id ids IH]; intros s Hb; [done|].
  apply IH. by apply CloseStream_incoming_bounded.
Qed.

Lemma route_incoming_bounded
    (Input_WriteFrame : Frame -> StreamReader -> StreamReader * option error)
    (frame : Frame) (id : Z) (s : Session) :
  incoming_bounded s ->
  incoming_bounded (session.route Input_WriteFrame frame id s).
Proof.
  intros Hb. unfold session.route. destruct (streams s !! id) as [p|]; [|done].
  destruct (Input_WriteFrame frame _) as [input err].
  set (s1 := set_heap _ s).
  assert (Hb1 : incoming_bounded s1) by done.
  destruct (is_EOF err); [destruct (writer_closed _)|destruct (negb (is_nil err))];
    try done; by apply CloseStream_incoming_bounded.
Qed.

Lemma newStream_local_incoming_bounded (id : Z) (s : Session) :
  incoming_bounded s -> incoming_bounded (session.newStream id true s).1.
Proof.
  intros Hb.
  destruct (session.newStream id true s) as [s' [p|err]] eqn:H.
  - apply newStream_ok in H as (Hl & _ & _ & _ & ->). simpl.
    revert Hb. apply incoming_bounded_shrink; [done|done|].
    intros i q. simpl.
    intros [[<- _]|[_ ?]]%lookup_insert_Some; [by right|by left].
  - by rewrite (newStream_error _ _ _ _ _ H).
Qed.

Lemma newStream_remote_incoming_bounded (id : Z) (s : Session) :
  id ≠ 0 ->
  lastStreamIdIn s + 2 < 2 ^ 32 ->
  incoming_bounded s -> incoming_bounded (session.newStream id false s).1.
Proof.
  intros Hid Hlt (Hr & Hpar & Hreg).
  destruct (session.newStream id false s) as [s' [p|err]] eqn:H.
  - apply newStream_ok in H as (Hl & Hn & _ & _ & ->). simpl.
    assert (Hle : lastStreamIdIn s <= id ∧ 0 <= id < 2 ^ 32).
    { subst id. unfold session.nextIdIn in *.
      destruct (Z.eqb_spec (lastStreamIdIn s) 0) as [->|Hne].
      - destruct (Server s); lia.
      - rewrite uint32_small; lia. }
    split; [simpl; lia|]. split; [done|].
    intros i q. simpl.
    intros [[<- _]|[_ Hq]]%lookup_insert_Some Hli; [lia|].
    destruct (Hreg i q Hq Hli). lia.
  - by rewrite (newStream_error _ _ _ _ _ H).
Qed.

Lemma processFrame_incoming_bounded
    (Input_WriteFrame : Frame -> StreamReader -> StreamReader * option error)
    (frame : Frame) (s : Session) :
  lastStreamIdIn s + 2 < 2 ^ 32 ->
  incoming_bounded s ->
  incoming_bounded (session.processFrame Input_WriteFrame frame s).
Proof.
  intros Hlt Hb. unfold session.processFrame.
  destruct (Z.eqb_spec (GetStreamId frame) 0) as [|Hid]; [done|]. simpl.
  destruct (is_SynStreamFrame frame); [|by apply route_incoming_bounded].
  pose proof (newStream_remote_incoming_bounded _ s Hid Hlt Hb) as Hb1.
  destruct (session.newStream (GetStreamId frame) false s) as [s1 [p|err]] eqn:H.
  - by apply route_incoming_bounded.
  - by rewrite (newStream_error _ _ _ _ _ H) in *.
Qed.

Lemma reachable_before_wrap_bounded
    (Input_WriteFrame : Frame -> StreamReader -> StreamReader * option error)
    (s : Session) :
  reachable_before_wrap Input_WriteFrame s -> incoming_bounded s.
Proof.
  induction 1 as [framer handler server|ev s _ IH Hlt].
  - split; [simpl; lia|]. split; [done|].
    intros id p Hp. simpl in Hp. by rewrite lookup_empty in Hp.
  - destruct ev as [|id| |frame]; simpl.
    + rewrite OpenStream_newStream. by apply newStream_local_incoming_bounded.
    + by apply CloseStream_incoming_bounded.
    + by apply CloseStreams_incoming_bounded.
    + by apply processFrame_incoming_bounded.
Qed.

(** Below its mark, the table does not hold the expected next id. *)
Lemma incoming_bounded_next_free (s : Session) :
  incoming_bounded s ->
  lastStreamIdIn s + 2 < 2 ^ 32 ->
  streams s !! session.nextIdIn s = None.
Proof.
  intros (Hr & Hpar & Hreg) Hlt.
  destruct (streams s !! session.nextIdIn s) as [p|] eqn:Hp; [|done].
  exfalso. destruct (Hreg _ _ Hp) as [_ Hle].
  - unfold session.nextIdIn, session.isLocalId in *.
    destruct (Z.eqb_spec (lastStreamIdIn s) 0) as [|Hne].
    + by destruct (Server s).
    + rewrite uint32_small by lia.
      specialize (Hpar Hne).
      replace (lastStreamIdIn s + 2) with (lastStreamIdIn s + 1 * 2) by lia.
      by rewrite Z.mod_add by lia.
  - unfold session.nextIdIn in Hle.
    destruct (Z.eqb_spec (lastStreamIdIn s) 0) as [Heq|Hne].
    + rewrite Heq in Hle. destruct (Server s); lia.
    + rewrite uint32_small in Hle; lia.
Qed.

(** So, before the wrap, parity and sequence decide alone. *)
Lemma accepts_incoming_before_wrap
    (Input_WriteFrame : Frame -> StreamReader -> StreamReader * option error)
    (s : Session) (id : Z) :
  reachable_before_wrap Input_WriteFrame s ->
  lastStreamIdIn s + 2 < 2 ^ 32 ->
  accepts_incoming s id
  ↔ session.isLocalId s id = false ∧ id = session.nextIdIn s.
Proof.
  intros Hreach Hlt. split; [by intros (? & ? & _)|].
  intros [Hl Hn]. split; [done|]. split; [done|]. subst id.
  apply incoming_bounded_next_free; [|done].
  by eapply reachable_before_wrap_bounded.
Qed.


(** * Further properties of the session *)

(** X1: [newStream id local] registers the stream exactly when the id has
    the parity of the side that is said to open it, is the next id of that
    direction, and is free. It then allocates a new stream object with
    that id and [IsMine = local], puts it in the table, and moves the mark
    of that direction, and of that direction only, to the id. In every
    other case it returns an error and the session is as before. *)
Theorem newStream_spec (id : Z) (local : bool) (s : Session) :
  (accepts s id local ->
     session.newStream id local s = (registered id local s, inl (length (heap s))))
  ∧ (¬ accepts s id local ->
     ∃ err, session.newStream id local s = (s, inr err)).
Proof.
  split.
  - intros (Hl & Hn & Hs).
    destruct (newStream_accepts id local s Hl Hn Hs) as [s' H'].
    rewrite H'. f_equal.
    by apply newStream_ok in H' as (_ & _ & _ & _ & ->).
  - apply newStream_rejects.
Qed.

Lemma newStream_spec_witness :
  session.newStream 1 true new_client = (registered 1 true new_client, inl 0%nat)
  ∧ ∃ err, session.newStream 2 true new_client = (new_client, inr err).
Proof.
  assert (Hyes : accepts new_client 1 true) by (repeat split; reflexivity).
  assert (Hno : ¬ accepts new_client 2 true).
  { intros (Hl & _). vm_compute in Hl. discriminate. }
  exact (conj (proj1 (newStream_spec 1 true new_client) Hyes)
              (proj2 (newStream_spec 2 true new_client) Hno)).
Defined.

Lemma nextIdIn_after_newStream (n : Z) (s s' : Session) (p : ptr) :
  session.newStream n false s = (s', inl p) ->
  session.nextIdIn s' = uint32 (n + 2).
Proof.
  intros H. apply newStream_ok in H as (Hl & Hn & _ & _ & ->).
  unfold session.nextIdIn at 1. simpl.
  destruct (Z.eqb_spec n 0) as [->|]; [|done].
  unfold session.isLocalId in Hl.
  destruct (Server s); [discriminate|done].
Qed.

Lemma next_id_nonneg (s : Session) :
  0 <= session.nextIdOut s ∧ 0 <= session.nextIdIn s.
Proof.
  unfold session.nextIdOut, session.nextIdIn. split.
  - destruct (_ =? _); [destruct (Server s); lia|apply uint32_range].
  - destruct (_ =? _); [destruct (Server s); lia|apply uint32_range].
Qed.

(** X2: after [newStream n local] has registered the id [n], and as long
    as [n + 2] is a 32-bit value, the next id of that direction is exactly
    [n + 2] (the outgoing one for a local stream, the expected incoming one
    for a remote stream), and the next id of the other direction is what it
    was. *)
Theorem next_id_after_registration (n : Z) (local : bool) (s s' : Session)
    (p : ptr) :
  session.newStream n local s = (s', inl p) ->
  n + 2 < 2 ^ 32 ->
  (if local then session.nextIdOut s' else session.nextIdIn s') = n + 2
  ∧ (if local then session.nextIdIn s' = session.nextIdIn s
     else session.nextIdOut s' = session.nextIdOut s).
Proof.
  intros H Hlt.
  pose proof (newStream_ok _ _ _ _ _ H) as (_ & Hn & _ & _ & Hs').
  assert (0 <= n).
  { subst n. destruct local; apply next_id_nonneg. }
  destruct local.
  - split; [|by rewrite Hs'].
    rewrite (nextIdOut_after_newStream _ _ _ _ H). apply uint32_small. lia.
  - split; [|by rewrite Hs'].
    rewrite (nextIdIn_after_newStream _ _ _ _ H). apply uint32_small. lia.
Qed.

Lemma next_id_after_registration_witness :
  session.nextIdIn (registered 1 false new_server) = 1 + 2
  ∧ session.nextIdOut (registered 1 false new_server) = session.nextIdOut new_server.
Proof.
  assert (H : session.newStream 1 false new_server
              = (registered 1 false new_server, inl 0%nat)) by reflexivity.
  assert (Hlt : 1 + 2 < 2 ^ 32) by lia.
  exact (next_id_after_registration 1 false new_server _ 0%nat H Hlt).
Defined.

(** X3: [OpenStream] sends nothing: whether it succeeds or fails, the
    transport (its log of written frames included) is as before. It also
    leaves the incoming mark, the closed flag, every registration and
    every stream object that existed as they were; on success the id it
    registers is [nextIdOut]. *)
Theorem OpenStream_sends_nothing (s : Session) :
  framer (session.OpenStream s).1 = framer s
  ∧ lastStreamIdIn (session.OpenStream s).1 = lastStreamIdIn s
  ∧ closed (session.OpenStream s).1 = closed s
  ∧ (∀ id p, streams s !! id = Some p ->
       streams (session.OpenStream s).1 !! id = Some p)
  ∧ (∀ p st, heap s !! p = Some st ->
       heap (session.OpenStream s).1 !! p = Some st)
  ∧ (∀ p, (session.OpenStream s).2 = inl p ->
       streams (session.OpenStream s).1 !! session.nextIdOut s = Some p
       ∧ heap (session.OpenStream s).1 !! p
         = Some (stream.newStream (session.nextIdOut s) true)
       ∧ lastStreamIdOut (session.OpenStream s).1 = session.nextIdOut s).
Proof.
  rewrite OpenStream_newStream.
  destruct (session.newStream (session.nextIdOut s) true s) as [s' [q|err]] eqn:H.
  - apply newStream_ok in H as (_ & _ & Hfree & -> & ->). simpl.
    split; [done|]. split; [done|]. split; [done|]. split; [|split].
    + intros id p Hp. rewrite lookup_insert_ne; [done|congruence].
    + intros p st Hp. by apply lookup_app_l_Some.
    + intros p [= <-]. split; [apply lookup_insert_eq|].
      split; [|done]. by rewrite lookup_app_r, Nat.sub_diag.
  - rewrite (newStream_error _ _ _ _ _ H). simpl.
    by repeat split.
Qed.

(** ** The outgoing side before the ids wrap *)

Lemma outgoing_bounded_shrink (s s' : Session) :
  Server s' = Server s ->
  lastStreamIdOut s' = lastStreamIdOut s ->
  (∀ id p, streams s' !! id = Some p ->
     streams s !! id = Some p ∨ session.isLocalId s id = false) ->
  outgoing_bounded s -> outgoing_bounded s'.
Proof.
  intros Hserver Hlast Hsub (Hr & Hpar & Hreg).
  unfold outgoing_bounded. rewrite Hlast.
  split; [done|]. split.
  - intros Hne. rewrite (isLocalId_Server _ _ _ Hserver). by apply Hpar.
  - intros id p Hp Hl. rewrite (isLocalId_Server _ _ _ Hserver) in Hl.
    destruct (Hsub id p Hp) as [Hold|Hloc]; [by eapply Hreg|congruence].
Qed.

Lemma CloseStream_outgoing_bounded (id : Z) (s : Session) :
  outgoing_bounded s -> outgoing_bounded (session.CloseStream id s).1.
Proof.
  destruct (CloseStream_last_ids id s) as (_ & Hout & Hserver).
  apply outgoing_bounded_shrink; [done|done|].
  intros i p. rewrite CloseStream_streams. intros [_ ?]%lookup_delete_Some. by left.
Qed.

Lemma CloseStreams_outgoing_bounded (ids : list Z) (s : Session) :
  outgoing_bounded s -> outgoing_bounded (session.CloseStreams ids s).
Proof.
  revert s. induction ids as [|id ids IH]; intros s Hb; [done|].
  apply IH. by apply CloseStream_outgoing_bounded.
Qed.

Lemma route_outgoing_bounded
    (Input_WriteFrame : Frame -> StreamReader -> StreamReader * option error)
    (frame : Frame) (id : Z) (s : Session) :
  outgoing_bounded s ->
  outgoing_bounded (session.route Input_WriteFrame frame id s).
Proof.
  intros Hb. unfold session.route. destruct (streams s !! id) as [p|]; [|done].
  destruct (Input_WriteFrame frame _) as [input err].
  set (s1 := set_heap _ s).
  assert (Hb1 : outgoing_bounded s1) by done.
  destruct (is_EOF err); [destruct (writer_closed _)|destruct (negb (is_nil err))];
    try done; by apply CloseStream_outgoing_bounded.
Qed.

Lemma newStream_remote_outgoing_bounded (id : Z) (s : Session) :
  outgoing_bounded s -> outgoing_bounded (session.newStream id false s).1.
Proof.
  intros Hb.
  destruct (session.newStream id false s) as [s' [p|err]] eqn:H.
  - apply newStream_ok in H as (Hl & _ & _ & _ & ->). simpl.
    revert Hb. apply outgoing_bounded_shrink; [done|done|].
    intros i q. simpl.
    intros [[<- _]|[_ ?]]%lookup_insert_Some; [by right|by left].
  - by rewrite (newStream_error _ _ _ _ _ H).
Qed.

Lemma nextIdOut_in_range (s : Session) :
  outgoing_bounded s ->
  lastStreamIdOut s + 2 < 2 ^ 32 ->
  lastStreamIdOut s < session.nextIdOut s < 2 ^ 32
  ∧ session.isLocalId s (session.nextIdOut s) = true.
Proof.
  intros (Hr & Hpar & _) Hlt. unfold session.nextIdOut, session.isLocalId in *.
  destruct (Z.eqb_spec (lastStreamIdOut s) 0) as [Heq|Hne].
  - rewrite Heq. destruct (Server s); split; (lia || done).
  - rewrite uint32_small by lia. split; [lia|].
    specialize (Hpar Hne).
    replace (lastStreamIdOut s + 2) with (lastStreamIdOut s + 1 * 2) by lia.
    by rewrite Z.mod_add by lia.
Qed.

Lemma newStream_local_outgoing_bounded (id : Z) (s : Session) :
  lastStreamIdOut s + 2 < 2 ^ 32 ->
  outgoing_bounded s -> outgoing_bounded (session.newStream id true s).1.
Proof.
  intros Hlt Hb.
  destruct (nextIdOut_in_range s Hb Hlt) as (Hnext & _).
  destruct Hb as (Hr & Hpar & Hreg).
  destruct (session.newStream id true s) as [s' [p|err]] eqn:H.
  - apply newStream_ok in H as (Hl & -> & _ & _ & ->). simpl.
    split; [simpl; lia|]. split; [done|].
    intros i q. simpl.
    intros [[<- _]|[_ Hq]]%lookup_insert_Some Hli; [lia|].
    destruct (Hreg i q Hq Hli). lia.
  - by rewrite (newStream_error _ _ _ _ _ H).
Qed.

Lemma processFrame_outgoing_bounded
    (Input_WriteFrame : Frame -> StreamReader -> StreamReader * option error)
    (frame : Frame) (s : Session) :
  outgoing_bounded s ->
  outgoing_bounded (session.processFrame Input_WriteFrame frame s).
Proof.
  intros Hb. unfold session.processFrame.
  destruct (negb (GetStreamId frame =? 0)); [|done].
  destruct (is_SynStreamFrame frame); [|by apply route_outgoing_bounded].
  pose proof (newStream_remote_outgoing_bounded (GetStreamId frame) s Hb) as Hb1.
  destruct (session.newStream (GetStreamId frame) false s) as [s1 [p|err]] eqn:H.
  - by apply route_outgoing_bounded.
  - by rewrite (newStream_error _ _ _ _ _ H) in *.
Qed.

Lemma reachable_in_range_outgoing
    (Input_WriteFrame : Frame -> StreamReader -> StreamReader * option error)
    (s : Session) :
  reachable_in_range Input_WriteFrame s -> outgoing_bounded s.
Proof.
  induction 1 as [framer handler server|ev s _ IH Hin Hout].
  - split; [simpl; lia|]. split; [done|].
    intros id p Hp. simpl in Hp. by rewrite lookup_empty in Hp.
  - destruct ev as [|id| |frame]; simpl.
    + rewrite OpenStream_newStream. by apply newStream_local_outgoing_bounded.
    + by apply CloseStream_outgoing_bounded.
    + by apply CloseStreams_outgoing_bounded.
    + by apply processFrame_outgoing_bounded.
Qed.

Lemma reachable_in_range_before_wrap
    (Input_WriteFrame : Frame -> StreamReader -> StreamReader * option error)
    (s : Session) :
  reachable_in_range Input_WriteFrame s ->
  reachable_before_wrap Input_WriteFrame s.
Proof. induction 1; by constructor. Qed.

(** X4: in every session a program can see while the ids have not come to
    the end of the 32-bit range, [OpenStream] succeeds: the id it takes,
    [nextIdOut], is free, it is greater than every id this side has opened
    so far, and the session afterwards is the one with that stream
    registered as locally opened. *)
Theorem OpenStream_succeeds
    (Input_WriteFrame : Frame -> StreamReader -> StreamReader * option error)
    (s : Session) :
  reachable_in_range Input_WriteFrame s ->
  lastStreamIdOut s + 2 < 2 ^ 32 ->
  session.OpenStream s
  = (registered (session.nextIdOut s) true s, inl (length (heap s)))
  ∧ lastStreamIdOut s < session.nextIdOut s
  ∧ (∀ id p, streams s !! id = Some p -> session.isLocalId s id = true ->
       id < session.nextIdOut s).
Proof.
  intros Hreach Hlt.
  pose proof (reachable_in_range_outgoing _ _ Hreach) as Hb.
  destruct (nextIdOut_in_range s Hb Hlt) as (Hnext & Hpar).
  assert (Hlower : ∀ id p, streams s !! id = Some p ->
                     session.isLocalId s id = true -> id < session.nextIdOut s).
  { intros id p Hp Hl. destruct Hb as (_ & _ & Hreg).
    destruct (Hreg id p Hp Hl). lia. }
  assert (Hfree : streams s !! session.nextIdOut s = None).
  { destruct (streams s !! session.nextIdOut s) as [p|] eqn:Hp; [|done].
    specialize (Hlower _ _ Hp Hpar). lia. }
  split; [|split; [lia|done]].
  rewrite OpenStream_newStream.
  destruct (newStream_accepts (session.nextIdOut s) true s Hpar eq_refl Hfree)
    as [s' H'].
  rewrite H'. f_equal.
  by apply newStream_ok in H' as (_ & _ & _ & _ & ->).
Qed.

Lemma session_two_streams_in_range :
  reachable_in_range reader.WriteFrame session_two_streams.
Proof.
  unfold session_two_streams.
  apply reachable_in_range_event; [|by vm_compute|by vm_compute].
  apply reachable_in_range_event; [|by vm_compute|by vm_compute].
  constructor.
Defined.

Lemma OpenStream_succeeds_witness :
  session.OpenStream session_two_streams
  = (registered 4 true session_two_streams, inl 2%nat)
  ∧ lastStreamIdOut session_two_streams < 4.
Proof.
  assert (Hlt : lastStreamIdOut session_two_streams + 2 < 2 ^ 32) by by vm_compute.
  pose proof (OpenStream_succeeds reader.WriteFrame session_two_streams
                session_two_streams_in_range Hlt) as H.
  exact (conj (proj1 H) (proj1 (proj2 H))).
Defined.

(** ** SYN_STREAM before the ids wrap *)

Lemma stream_created_iff_accepts
    (Input_WriteFrame : Frame -> StreamReader -> StreamReader * option error)
    (id flags : Z) (headers : Header) (s : Session) :
  id ≠ 0 ->
  stream_created s
    (session.processFrame Input_WriteFrame (SynStreamFrame id flags headers) s)
  ↔ accepts_incoming s id.
Proof.
  intros Hid. unfold stream_created.
  destruct (decide (accepts_incoming s id)) as [Hacc|Hrej].
  - split; [done|]. intros _.
    destruct (processFrame_SynStream_accepted Input_WriteFrame id flags headers
                s Hid Hacc) as (s1 & H1 & ->).
    pose proof (newStream_ok _ _ _ _ _ H1) as (_ & _ & _ & _ & Hs1).
    destruct (route_registered Input_WriteFrame (SynStreamFrame id flags headers)
                id s1) as (_ & -> & _).
    + rewrite Hs1. simpl. rewrite lookup_insert_eq. eauto.
    + rewrite Hs1. simpl. rewrite length_app. simpl. lia.
  - rewrite (processFrame_SynStream_rejected _ _ _ _ _ Hid Hrej). simpl.
    split; [lia|done].
Qed.

(** X5: in every session a program can see while the peer's ids have not
    come to the end of the 32-bit range, a SYN_STREAM frame with a nonzero
    id makes the session create a stream if and only if the id has the
    remote parity and is the expected next incoming id: the check for an
    id already in use never fires there. *)
Theorem SynStream_accepted_before_wrap
    (Input_WriteFrame : Frame -> StreamReader -> StreamReader * option error)
    (id flags : Z) (headers : Header) (s : Session) :
  reachable_before_wrap Input_WriteFrame s ->
  lastStreamIdIn s + 2 < 2 ^ 32 ->
  id ≠ 0 ->
  stream_created s
    (session.processFrame Input_WriteFrame (SynStreamFrame id flags headers) s)
  ↔ session.isLocalId s id = false ∧ id = session.nextIdIn s.
Proof.
  intros Hreach Hlt Hid.
  rewrite stream_created_iff_accepts by done.
  by apply accepts_incoming_before_wrap with Input_WriteFrame.
Qed.

Lemma session_two_streams_before_wrap :
  reachable_before_wrap reader.WriteFrame session_two_streams.
Proof.
  apply reachable_in_range_before_wrap, session_two_streams_in_range.
Defined.

Lemma SynStream_accepted_before_wrap_witness :
  stream_created session_two_streams
    (session.processFrame reader.WriteFrame (SynStreamFrame 3 0 ∅)
       session_two_streams)
  ∧ ¬ stream_created session_two_streams
        (session.processFrame reader.WriteFrame (SynStreamFrame 5 0 ∅)
           session_two_streams).
Proof.
  assert (Hlt : lastStreamIdIn session_two_streams + 2 < 2 ^ 32) by by vm_compute.
  assert (H3 : 3 ≠ 0) by lia.
  assert (H5 : 5 ≠ 0) by lia.
  split.
  - apply (SynStream_accepted_before_wrap reader.WriteFrame 3 0 ∅
             session_two_streams session_two_streams_before_wrap Hlt H3).
    split; reflexivity.
  - intros Hc.
    apply (SynStream_accepted_before_wrap reader.WriteFrame 5 0 ∅
             session_two_streams session_two_streams_before_wrap Hlt H5) in Hc.
    destruct Hc as [_ Hn]. vm_compute in Hn. discriminate.
Defined.

(** X26: what the session does with a SYN_STREAM frame of nonzero id
    while the peer's ids have not come to the end of the 32-bit range.
    When the id has the remote parity and is the expected next incoming
    id, a stream object is created, the id becomes the last incoming id,
    and nothing is written to the transport; the id is then registered
    for the new object if the stream's reader takes the frame or signals
    the end of the stream, and if the reader refuses the frame the stream
    is torn down again and the table is as before. Any other id is
    answered with one RST_STREAM frame with the status protocol error, and
    the table, the stream objects and the last incoming id stay as they
    are. *)
Theorem SynStream_registered_before_wrap
    (Input_WriteFrame : Frame -> StreamReader -> StreamReader * option error)
    (id flags : Z) (headers : Header) (s : Session) :
  reachable_before_wrap Input_WriteFrame s ->
  lastStreamIdIn s + 2 < 2 ^ 32 ->
  id ≠ 0 ->
  let frame := SynStreamFrame id flags headers in
  let s' := session.processFrame Input_WriteFrame frame s in
  (session.isLocalId s id = false ∧ id = session.nextIdIn s ->
     stream_created s s'
     ∧ framer s' = framer s
     ∧ lastStreamIdIn s' = id
     ∧ ∀ input err,
         Input_WriteFrame frame (Input (stream.newStream id false))
         = (input, err) ->
         streams s' = if is_nil err || is_EOF err
                      then <[id := length (heap s)]> (streams s)
                      else streams s)
  ∧ (¬ (session.isLocalId s id = false ∧ id = session.nextIdIn s) ->
       wlog (framer s')
       = wlog (framer s)
         ++ [(RstStreamFrame id ProtocolError,
              wfail (framer s) (length (wlog (framer s))))]
       ∧ streams s' = streams s
       ∧ heap s' = heap s
       ∧ lastStreamIdIn s' = lastStreamIdIn s).
Proof.
  intros Hreach Hlt Hid frame s'.
  pose proof (accepts_incoming_before_wrap Input_WriteFrame s id Hreach Hlt)
    as Hiff.
  pose proof (processFrame_SynStream_effect Input_WriteFrame id flags headers
                s Hid) as (Hc & Hyes & Hno).
  split.
  - intros Hacc%Hiff.
    destruct (Hyes Hacc) as (s1 & p & Hnew & Hs1 & _ & Hlast & Hroute & Hf & Ht).
    pose proof (newStream_ok _ _ _ _ _ Hnew) as (_ & _ & _ & -> & _).
    split; [by apply Hc|]. split; [done|]. split; [|done].
    unfold s'. fold frame in Hroute. rewrite Hroute.
    destruct (route_registered Input_WriteFrame frame id s1) as (_ & _ & ->);
      [|done].
    rewrite Hs1, lookup_insert_eq. eauto.
  - intros Hrej.
    destruct Hno as (? & ? & ? & ? & _); [by rewrite Hiff|done].
Qed.

Lemma SynStream_registered_before_wrap_witness :
  (streams (session.processFrame reader.WriteFrame (SynStreamFrame 3 0 ∅)
              session_two_streams)
   = <[3 := 2%nat]> (streams session_two_streams))
  ∧ streams (session.processFrame reader.WriteFrame (SynStreamFrame 5 0 ∅)
               session_two_streams)
    = streams session_two_streams.
Proof.
  assert (Hlt : lastStreamIdIn session_two_streams + 2 < 2 ^ 32) by by vm_compute.
  assert (H3 : 3 ≠ 0) by lia.
  assert (H5 : 5 ≠ 0) by lia.
  assert (Hn : ¬ (session.isLocalId session_two_streams 5 = false
                  ∧ 5 = session.nextIdIn session_two_streams)).
  { intros [_ Hn]. vm_compute in Hn. discriminate. }
  split.
  - exact (proj2 (proj2 (proj2 (proj1
             (SynStream_registered_before_wrap reader.WriteFrame 3 0 ∅
                session_two_streams session_two_streams_before_wrap Hlt H3)
             (conj eq_refl eq_refl))))
             _ _ eq_refl).
  - exact (proj1 (proj2 (proj2
             (SynStream_registered_before_wrap reader.WriteFrame 5 0 ∅
                session_two_streams session_two_streams_before_wrap Hlt H5)
             Hn))).
Defined.

(** ** The objects behind the table *)

Lemma table_consistent_new (framer : FrameReadWriter) (handler : option Handler)
    (server : bool) :
  table_consistent (session.NewSession framer handler server).
Proof. intros id p Hp. simpl in Hp. by rewrite lookup_empty in Hp. Qed.

Lemma newStream_table_consistent (id : Z) (local : bool) (s : Session) :
  table_consistent s -> table_consistent (session.newStream id local s).1.
Proof.
  intros Hc.
  destruct (session.newStream id local s) as [s' [p|err]] eqn:H.
  - apply newStream_ok in H as (Hl & _ & _ & -> & ->).
    assert (Hloc : ∀ i, session.isLocalId
                     ((if local then set_lastStreamIdOut id else set_lastStreamIdIn id)
                        (set_streams (<[id := length (heap s)]> (streams s))
                           (set_heap (heap s ++ [stream.newStream id local]) s))) i
                   = session.isLocalId s i).
    { intros i. apply isLocalId_Server. by destruct local. }
    intros i q Hq. rewrite Hloc.
    assert (Hq' : <[id := length (heap s)]> (streams s) !! i = Some q)
      by (by destruct local).
    assert (Hheap : ∀ x, heap ((if local then set_lastStreamIdOut id
                                else set_lastStreamIdIn id)
                        (set_streams (<[id := length (heap s)]> (streams s))
                           (set_heap (heap s ++ [stream.newStream id local]) s))) !! x
                    = (heap s ++ [stream.newStream id local]) !! x)
      by (by destruct local).
    rewrite Hheap.
    apply lookup_insert_Some in Hq' as [[<- <-]|[_ Hold]].
    + exists (stream.newStream id local).
      rewrite lookup_app_r, Nat.sub_diag by done. done.
    + destruct (Hc i q Hold) as (st & Hst & ? & ?).
      exists st. split; [by apply lookup_app_l_Some|done].
  - by rewrite (newStream_error _ _ _ _ _ H).
Qed.

Lemma CloseStream_table_consistent (id : Z) (s : Session) :
  table_consistent s -> table_consistent (session.CloseStream id s).1.
Proof.
  intros Hc i q. rewrite CloseStream_streams.
  intros [_ Hq]%lookup_delete_Some.
  destruct (Hc i q Hq) as (st & Hst & Hid & Hmine).
  rewrite CloseStream_heap, Hst.
  rewrite (isLocalId_Server s) by apply CloseStream_last_ids.
  case_decide; eauto.
Qed.

Lemma CloseStreams_table_consistent (ids : list Z) (s : Session) :
  table_consistent s -> table_consistent (session.CloseStreams ids s).
Proof.
  revert s. induction ids as [|id ids IH]; intros s Hc; [done|].
  apply IH. by apply CloseStream_table_consistent.
Qed.

Lemma route_table_consistent
    (Input_WriteFrame : Frame -> StreamReader -> StreamReader * option error)
    (frame : Frame) (id : Z) (s : Session) :
  table_consistent s ->
  table_consistent (session.route Input_WriteFrame frame id s).
Proof.
  intros Hc. unfold session.route.
  destruct (streams s !! id) as [p|] eqn:Hp; [|done].
  destruct (Input_WriteFrame frame _) as [input err].
  set (s1 := set_heap _ s).
  assert (Hc1 : table_consistent s1).
  { intros i q Hq. destruct (Hc i q Hq) as (st & Hst & Hid & Hmine).
    unfold s1. simpl.
    destruct (decide (p = q)) as [->|Hne].
    - rewrite list_lookup_insert_eq by (by eapply lookup_lt_Some).
      rewrite (list_lookup_total_correct _ _ _ Hst). eauto.
    - rewrite list_lookup_insert_ne by done. eauto. }
  destruct (is_EOF err); [destruct (writer_closed _)|destruct (negb (is_nil err))];
    try done; by apply CloseStream_table_consistent.
Qed.

Lemma processFrame_table_consistent
    (Input_WriteFrame : Frame -> StreamReader -> StreamReader * option error)
    (frame : Frame) (s : Session) :
  table_consistent s ->
  table_consistent (session.processFrame Input_WriteFrame frame s).
Proof.
  intros Hc. unfold session.processFrame.
  destruct (negb (GetStreamId frame =? 0)); [|done].
  destruct (is_SynStreamFrame frame); [|by apply route_table_consistent].
  pose proof (newStream_table_consistent (GetStreamId frame) false s Hc) as Hc1.
  destruct (session.newStream (GetStreamId frame) false s) as [s1 [p|err]] eqn:H.
  - by apply route_table_consistent.
  - by rewrite (newStream_error _ _ _ _ _ H) in *.
Qed.

Lemma reachable_table_consistent
    (Input_WriteFrame : Frame -> StreamReader -> StreamReader * option error)
    (s : Session) :
  reachable Input_WriteFrame s -> table_consistent s.
Proof.
  induction 1 as [framer handler server|ev s _ IH].
  - apply table_consistent_new.
  - destruct ev as [|id| |frame]; simpl.
    + rewrite OpenStream_newStream. by apply newStream_table_consistent.
    + by apply CloseStream_table_consistent.
    + by apply CloseStreams_table_consistent.
    + by apply processFrame_table_consistent.
Qed.

(** X6: in every session a program can see, every id of the table points
    to a stream object that exists, that carries this very id, and whose
    [IsMine] flag is true exactly when the id has this side's parity; two
    ids never share an object. *)
Theorem registered_stream_identity
    (Input_WriteFrame : Frame -> StreamReader -> StreamReader * option error)
    (s : Session) :
  reachable Input_WriteFrame s ->
  table_consistent s
  ∧ (∀ id id' p, streams s !! id = Some p -> streams s !! id' = Some p ->
       id = id').
Proof.
  intros Hreach.
  pose proof (reachable_table_consistent _ _ Hreach) as Hc.
  split; [done|].
  intros id id' p Hp Hp'.
  destruct (Hc id p Hp) as (st & Hst & Hid & _).
  destruct (Hc id' p Hp') as (st' & Hst' & Hid' & _).
  congruence.
Qed.

Lemma session_two_streams_reachable :
  reachable reader.WriteFrame session_two_streams.
Proof. unfold session_two_streams. do 2 apply reachable_event. constructor. Defined.

Lemma registered_stream_identity_witness :
  ∃ st, heap session_two_streams !! 1%nat = Some st ∧ Id st = 2
    ∧ IsMine st = session.isLocalId session_two_streams 2.
Proof.
  exact (proj1 (registered_stream_identity reader.WriteFrame session_two_streams
                  session_two_streams_reachable) 2 1%nat eq_refl).
Defined.

(** X7: in every session a program can see, [CloseStream id] touches no
    other stream: every other registered id stays registered, with the
    same stream object in the same state. *)
Theorem CloseStream_leaves_others
    (Input_WriteFrame : Frame -> StreamReader -> StreamReader * option error)
    (s : Session) (id id' : Z) (p' : ptr) (st' : Stream) :
  reachable Input_WriteFrame s ->
  id ≠ id' ->
  streams s !! id' = Some p' ->
  heap s !! p' = Some st' ->
  streams (session.CloseStream id s).1 !! id' = Some p'
  ∧ heap (session.CloseStream id s).1 !! p' = Some st'.
Proof.
  intros Hreach Hne Hp' Hst'.
  rewrite CloseStream_streams, lookup_delete_ne by done. split; [done|].
  rewrite CloseStream_heap. case_decide as Hp; [|done].
  pose proof (reachable_table_consistent _ _ Hreach) as Hc.
  destruct (Hc id p' Hp) as (st & Hst & Hid & _).
  destruct (Hc id' p' Hp') as (st2 & Hst2 & Hid2 & _).
  congruence.
Qed.

Lemma CloseStream_leaves_others_witness :
  streams (session.CloseStream 1 session_two_streams).1 !! 2 = Some 1%nat
  ∧ heap (session.CloseStream 1 session_two_streams).1 !! 1%nat
    = Some (stream.newStream 2 true).
Proof.
  assert (Hne : 1 ≠ 2) by lia.
  exact (CloseStream_leaves_others reader.WriteFrame session_two_streams 1 2
           1%nat (stream.newStream 2 true) session_two_streams_reachable Hne
           eq_refl eq_refl).
Defined.

(** X8: [NStreams] counts the registrations: a successful [newStream] adds
    one, a failed one adds none; [CloseStream] of a registered id takes one
    away, [CloseStream] of any other id takes none. *)
Theorem NStreams_counts (id : Z) (local : bool) (s : Session) :
  session.NStreams (session.newStream id local s).1
  = (match (session.newStream id local s).2 with
     | inl _ => S (session.NStreams s)
     | inr _ => session.NStreams s
     end)
  ∧ session.NStreams s
    = (match (session.CloseStream id s).2 with
       | None => S (session.NStreams (session.CloseStream id s).1)
       | Some _ => session.NStreams (session.CloseStream id s).1
       end).
Proof.
  unfold session.NStreams. split.
  - destruct (session.newStream id local s) as [s' [p|err]] eqn:H; simpl.
    + apply newStream_ok in H as (_ & _ & Hfree & _ & ->).
      destruct local; simpl; by rewrite map_size_insert_None.
    + by rewrite (newStream_error _ _ _ _ _ H).
  - unfold session.CloseStream. destruct (streams s !! id) as [p|] eqn:Hp; simpl.
    + rewrite map_size_delete, Hp.
      assert (size (streams s) ≠ 0%nat); [|lia].
      apply map_size_ne_0_lookup. eauto.
    + done.
Qed.

(** ** Closing the session *)

(** X9: the order in which [Close] walks the table is of no consequence:
    two walks that both come by every registered id, in any order, with
    repetitions or with ids that are not registered, leave the same
    session. *)
Theorem Close_order_irrelevant (ids1 ids2 : list Z) (s : Session) :
  (∀ id, is_Some (streams s !! id) -> id ∈ ids1) ->
  (∀ id, is_Some (streams s !! id) -> id ∈ ids2) ->
  session.CloseStreams ids1 (set_closed true s)
  = session.CloseStreams ids2 (set_closed true s).
Proof.
  intros H1 H2. by rewrite (Close_any_order ids1 s H1), (Close_any_order ids2 s H2).
Qed.

Lemma session_two_streams_ids (ids : list Z) :
  1 ∈ ids -> 2 ∈ ids ->
  ∀ id, is_Some (streams session_two_streams !! id) -> id ∈ ids.
Proof.
  intros H1 H2 id [p Hp].
  change (streams session_two_streams)
    with (<[2 := 1%nat]> (<[1 := 0%nat]> (∅ : gmap Z ptr))) in Hp.
  apply lookup_insert_Some in Hp as [[<- _]|[_ Hp]]; [done|].
  apply lookup_insert_Some in Hp as [[<- _]|[_ Hp]]; [done|].
  by rewrite lookup_empty in Hp.
Defined.

Lemma Close_order_irrelevant_witness :
  session.CloseStreams [1; 2] (set_closed true session_two_streams)
  = session.CloseStreams [2; 7; 1; 2] (set_closed true session_two_streams).
Proof.
  apply Close_order_irrelevant; apply session_two_streams_ids;
    apply list_elem_of_In; simpl; tauto.
Defined.

(** X10: [Close] is idempotent: a second [Close] finds the flag set and the
    table empty, and changes nothing. *)
Theorem Close_idempotent (s : Session) :
  session.Close (session.Close s) = session.Close s.
Proof.
  destruct (Close_spec s) as (Hclosed & Hempty & _).
  unfold session.Close at 1. simpl. rewrite Hempty, map_to_list_empty. simpl.
  destruct (session.Close s). simpl in *. by subst.
Qed.

(** ** Frames for streams that are not there, frames for streams that are *)

(** X11: a frame whose stream id is 0 changes nothing and is not answered,
    whatever its kind. A frame other than SYN_STREAM whose nonzero stream
    id is not registered is answered with one RST_STREAM frame for that id
    with the status protocol error, and changes nothing else. *)
Theorem processFrame_no_stream
    (Input_WriteFrame : Frame -> StreamReader -> StreamReader * option error)
    (frame : Frame) (s : Session) :
  (GetStreamId frame = 0 ->
     session.processFrame Input_WriteFrame frame s = s)
  ∧ (GetStreamId frame ≠ 0 ->
     is_SynStreamFrame frame = false ->
     streams s !! GetStreamId frame = None ->
     session.processFrame Input_WriteFrame frame s
     = set_framer
         (mkFramer (inbound (framer s)) (wfail (framer s))
            (wlog (framer s)
             ++ [(RstStreamFrame (GetStreamId frame) ProtocolError,
                  wfail (framer s) (length (wlog (framer s))))])) s).
Proof.
  unfold session.processFrame. split.
  - by intros ->.
  - intros Hid Hsyn Hnone.
    destruct (Z.eqb_spec (GetStreamId frame) 0); [done|]. simpl.
    rewrite Hsyn. unfold session.route. by rewrite Hnone.
Qed.

Lemma processFrame_no_stream_witness :
  session.processFrame reader.WriteFrame (SynStreamFrame 0 0 ∅) new_server
  = new_server
  ∧ wlog (framer (session.processFrame reader.WriteFrame
                    (DataFrame 9 0 (str "x")) session_two_streams))
    = [(RstStreamFrame 9 ProtocolError, None)].
Proof.
  assert (H9 : GetStreamId (DataFrame 9 0 (str "x")) ≠ 0) by (simpl; lia).
  split.
  - exact (proj1 (processFrame_no_stream reader.WriteFrame (SynStreamFrame 0 0 ∅)
                    new_server) eq_refl).
  - exact (f_equal (fun s => wlog (framer s))
             (proj2 (processFrame_no_stream reader.WriteFrame
                       (DataFrame 9 0 (str "x")) session_two_streams)
                H9 eq_refl eq_refl)).
Defined.

(** X12: a frame other than SYN_STREAM for a registered stream is handed
    to the stream's reader and is never answered: nothing is written to
    the transport and neither mark moves. The stream is torn down (its
    input closed, its id removed) when the reader reports an error other
    than the end of the stream, or reports the end of the stream while the
    stream's writer is closed; in every other case it stays registered.
    No other stream object changes. *)
Theorem processFrame_registered
    (Input_WriteFrame : Frame -> StreamReader -> StreamReader * option error)
    (frame : Frame) (s : Session) (p : ptr) (st : Stream)
    (input : StreamReader) (err : option error) :
  GetStreamId frame ≠ 0 ->
  is_SynStreamFrame frame = false ->
  streams s !! GetStreamId frame = Some p ->
  heap s !! p = Some st ->
  Input_WriteFrame frame (Input st) = (input, err) ->
  let s' := session.processFrame Input_WriteFrame frame s in
  let torn_down :=
    negb (is_nil err) && (negb (is_EOF err) || writer_closed (Output st)) in
  framer s' = framer s
  ∧ lastStreamIdIn s' = lastStreamIdIn s
  ∧ lastStreamIdOut s' = lastStreamIdOut s
  ∧ streams s' = (if torn_down then delete (GetStreamId frame) (streams s)
                  else streams s)
  ∧ heap s' !! p = Some (if torn_down then close_input (set_Input input st)
                         else set_Input input st)
  ∧ (∀ q, q ≠ p -> heap s' !! q = heap s !! q).
Proof.
  intros Hid Hsyn Hp Hst Hin s' torn_down. unfold s', session.processFrame.
  destruct (Z.eqb_spec (GetStreamId frame) 0); [done|]. simpl.
  rewrite Hsyn. unfold session.route. rewrite Hp.
  rewrite (list_lookup_total_correct _ _ _ Hst), Hin. simpl.
  pose proof (lookup_lt_Some _ _ _ Hst) as Hlt.
  rewrite list_lookup_total_insert_eq by done. simpl.
  set (s1 := set_heap (<[p := set_Input input st]> (heap s)) s).
  assert (Hp1 : streams s1 !! GetStreamId frame = Some p) by done.
  assert (Hkeep : framer s1 = framer s ∧ lastStreamIdIn s1 = lastStreamIdIn s
                  ∧ lastStreamIdOut s1 = lastStreamIdOut s
                  ∧ streams s1 = streams s
                  ∧ heap s1 !! p = Some (set_Input input st)
                  ∧ (∀ q, q ≠ p -> heap s1 !! q = heap s !! q)).
  { unfold s1. simpl. repeat split; try done.
    - by apply list_lookup_insert_eq.
    - intros q Hq. by apply list_lookup_insert_ne. }
  assert (Hdown : framer (session.CloseStream (GetStreamId frame) s1).1 = framer s
                  ∧ lastStreamIdIn (session.CloseStream (GetStreamId frame) s1).1
                    = lastStreamIdIn s
                  ∧ lastStreamIdOut (session.CloseStream (GetStreamId frame) s1).1
                    = lastStreamIdOut s
                  ∧ streams (session.CloseStream (GetStreamId frame) s1).1
                    = delete (GetStreamId frame) (streams s)
                  ∧ heap (session.CloseStream (GetStreamId frame) s1).1 !! p
                    = Some (close_input (set_Input input st))
                  ∧ (∀ q, q ≠ p ->
                       heap (session.CloseStream (GetStreamId frame) s1).1 !! q
                       = heap s !! q)).
  { rewrite (CloseStream_present _ _ _ Hp1). unfold s1. simpl.
    repeat split; try done.
    - rewrite list_lookup_alter_eq, list_lookup_insert_eq by done. done.
    - intros q Hq.
      rewrite list_lookup_alter_ne, list_lookup_insert_ne by done. done. }
  unfold torn_down.
  destruct err as [e|]; [destruct e|]; simpl;
    try done; by destruct (writer_closed (Output st)).
Qed.

Lemma processFrame_registered_witness :
  streams (session.processFrame reader.WriteFrame (DataFrame 1 1 (str "x"))
             session_two_streams)
  = streams session_two_streams
  ∧ (∃ st, heap (session.processFrame reader.WriteFrame (DataFrame 1 1 (str "x"))
                   session_two_streams) !! 0%nat = Some st
       ∧ reader.Closed (Input st) = true).
Proof.
  assert (H1 : GetStreamId (DataFrame 1 1 (str "x")) ≠ 0) by (simpl; lia).
  pose proof (processFrame_registered reader.WriteFrame (DataFrame 1 1 (str "x"))
                session_two_streams 0%nat _ _ _ H1 eq_refl eq_refl eq_refl eq_refl)
    as (_ & _ & _ & Hs & Hh & _).
  split; [exact Hs|]. eexists. split; [exact Hh|reflexivity].
Defined.

Lemma CloseStream_fields (id : Z) (s : Session) :
  lastStreamIdIn (session.CloseStream id s).1 = lastStreamIdIn s
  ∧ lastStreamIdOut (session.CloseStream id s).1 = lastStreamIdOut s
  ∧ Server (session.CloseStream id s).1 = Server s
  ∧ handler (session.CloseStream id s).1 = handler s
  ∧ closed (session.CloseStream id s).1 = closed s.
Proof. unfold session.CloseStream. by destruct (streams s !! id). Qed.

Lemma route_fields
    (Input_WriteFrame : Frame -> StreamReader -> StreamReader * option error)
    (frame : Frame) (id : Z) (s : Session) :
  lastStreamIdIn (session.route Input_WriteFrame frame id s) = lastStreamIdIn s
  ∧ lastStreamIdOut (session.route Input_WriteFrame frame id s) = lastStreamIdOut s
  ∧ Server (session.route Input_WriteFrame frame id s) = Server s
  ∧ handler (session.route Input_WriteFrame frame id s) = handler s
  ∧ closed (session.route Input_WriteFrame frame id s) = closed s.
Proof.
  unfold session.route. destruct (streams s !! id) as [p|]; [|done].
  destruct (Input_WriteFrame frame _) as [input err].
  set (s1 := set_heap _ s).
  destruct (CloseStream_fields id s1) as (Hi & Ho & Hs & Hh & Hc).
  destruct (is_EOF err); [destruct (writer_closed _)|destruct (negb (is_nil err))];
    try done; by rewrite Hi, Ho, Hs, Hh, Hc.
Qed.

Lemma processFrame_fields
    (Input_WriteFrame : Frame -> StreamReader -> StreamReader * option error)
    (frame : Frame) (s : Session) :
  lastStreamIdOut (session.processFrame Input_WriteFrame frame s) = lastStreamIdOut s
  ∧ Server (session.processFrame Input_WriteFrame frame s) = Server s
  ∧ handler (session.processFrame Input_WriteFrame frame s) = handler s
  ∧ closed (session.processFrame Input_WriteFrame frame s) = closed s.
Proof.
  unfold session.processFrame.
  destruct (negb (GetStreamId frame =? 0)); [|done].
  destruct (is_SynStreamFrame frame).
  - destruct (session.newStream (GetStreamId frame) false s) as [s1 [p|err]] eqn:H.
    + destruct (route_fields Input_WriteFrame frame (GetStreamId frame) s1)
        as (_ & -> & -> & -> & ->).
      by apply newStream_ok in H as (_ & _ & _ & _ & ->).
    + by rewrite (newStream_error _ _ _ _ _ H).
  - by destruct (route_fields Input_WriteFrame frame (GetStreamId frame) s)
      as (_ & -> & -> & -> & ->).
Qed.

(** X13: an incoming frame never moves the outgoing side: [processFrame]
    leaves [lastStreamIdOut], and so the id [nextIdOut] allocates next, the
    role, the handler and the closed flag as they were. *)
Theorem processFrame_keeps_outgoing
    (Input_WriteFrame : Frame -> StreamReader -> StreamReader * option error)
    (frame : Frame) (s : Session) :
  let s' := session.processFrame Input_WriteFrame frame s in
  lastStreamIdOut s' = lastStreamIdOut s
  ∧ session.nextIdOut s' = session.nextIdOut s
  ∧ Server s' = Server s
  ∧ handler s' = handler s
  ∧ closed s' = closed s.
Proof.
  destruct (processFrame_fields Input_WriteFrame frame s)
    as (Hout & Hserver & Hhandler & Hclosed).
  simpl. repeat split; try done.
  unfold session.nextIdOut. by rewrite Hout, Hserver.
Qed.

(** ** The receive loop *)

Lemma receive_loop_returns
    (Input_WriteFrame : Frame -> StreamReader -> StreamReader * option error)
    (fuel : nat) (s s' : Session) (err : option error) :
  session.receive_loop Input_WriteFrame fuel s = Some (s', err) ->
  is_Some err ∧ closed s' = true ∧ streams s' = ∅.
Proof.
  revert s. induction fuel as [|fuel IH]; intros s; [done|]. simpl.
  destruct (ReadFrame (framer s)) as [[[rawframe|e] f]|]; [|intros [= <- <-]|done].
  - apply IH.
  - destruct (Close_spec (set_framer f s)) as (? & ? & _). eauto.
Qed.

(** X14: [run] never returns [nil]. When it returns, it returns an error,
    and either the session had no handler, the GOAWAY write failed with
    that error and nothing else happened (no frame was read, the session
    is not closed by [run]), or [Close] has run: the closed flag is set and
    the table is empty. *)
Theorem run_returns_error
    (Input_WriteFrame : Frame -> StreamReader -> StreamReader * option error)
    (fuel : nat) (s s' : Session) (err : option error) :
  session.run Input_WriteFrame fuel s = Some (s', err) ->
  is_Some err
  ∧ ((handler s = None
      ∧ err = wfail (framer s) (length (wlog (framer s)))
      ∧ s' = session.WriteFrame_ (GoAwayFrame 0) s)
     ∨ (closed s' = true ∧ streams s' = ∅)).
Proof.
  unfold session.run. destruct (handler s) as [h|].
  - intros H. apply receive_loop_returns in H as (? & ? & ?). eauto.
  - rewrite WriteFrame_spec.
    destruct (wfail (framer s) (length (wlog (framer s)))) as [e|] eqn:He; simpl.
    + intros [= <- <-]. split; [eauto|]. left.
      split; [done|]. split; [done|].
      unfold session.WriteFrame_. by rewrite WriteFrame_spec, He.
    + intros H. apply receive_loop_returns in H as (? & ? & ?). eauto.
Qed.

Lemma run_returns_error_witness :
  ∃ s', session.run reader.WriteFrame 0
          (session.NewSession framer_down None true)
        = Some (s', Some (ErrTransport 1))
    ∧ s' = session.WriteFrame_ (GoAwayFrame 0)
             (session.NewSession framer_down None true)
    ∧ closed s' = false.
Proof.
  eexists. split; [reflexivity|].
  destruct (run_returns_error reader.WriteFrame 0
              (session.NewSession framer_down None true) _ _ eq_refl)
    as (_ & [(_ & _ & Hs)|(Hc & _)]).
  - split; [exact Hs|reflexivity].
  - discriminate Hc.
Defined.

(** * Further properties of the writer *)

(** X15: on a stream that has sent nothing, over a transport whose next
    two writes succeed, two calls of [SendHeaders] write first the opening
    frame (SYN_STREAM when this side opened the stream, SYN_REPLY when the
    peer did) and then a HEADERS frame, each with the stream's id and the
    writer's headers, and with the FIN flag set exactly when the call was
    final; [nFramesSent] is 2 afterwards. *)
Theorem SendHeaders_opening_then_headers (final1 final2 : bool) (st : Stream)
    (f : FrameReadWriter) :
  nFramesSent (Output st) = 0 ->
  wfail f (length (wlog f)) = None ->
  wfail f (S (length (wlog f))) = None ->
  ∃ f2,
    (let '(st1, f1, _) := writer.SendHeaders final1 st f in
     writer.SendHeaders final2 st1 f1)
    = (writer.set_nFramesSent 2 st, f2, None)
    ∧ wlog f2 = wlog f ++ [(opening_frame st (fin_flag final1), None);
                           (HeadersFrame (Id st) (fin_flag final2)
                              (writer.Headers st), None)].
Proof.
  intros H0 Hw1 Hw2.
  rewrite SendHeaders_writeFrame, writeFrame_spec, Hw1. cbv beta iota.
  rewrite SendHeaders_writeFrame, writeFrame_spec, !WriteFrame_spec.
  cbn [fst snd wlog wfail inbound].
  rewrite length_app, Nat.add_1_r, Hw2.
  eexists. split.
  - f_equal. f_equal. simpl. rewrite H0. reflexivity.
  - rewrite <- app_assoc.
    unfold header_frame, opening_frame. simpl. rewrite H0, Hw1. simpl.
    by destruct final1, final2, (IsMine st).
Qed.

Lemma SendHeaders_opening_then_headers_witness :
  ∃ f2,
    (let '(st1, f1, _) := writer.SendHeaders false (stream.newStream 1 true) framer_ok in
     writer.SendHeaders true st1 f1)
    = (writer.set_nFramesSent 2 (stream.newStream 1 true), f2, None)
    ∧ wlog f2 = [(SynStreamFrame 1 0 ∅, None); (HeadersFrame 1 1 ∅, None)].
Proof.
  exact (SendHeaders_opening_then_headers false true (stream.newStream 1 true)
           framer_ok eq_refl eq_refl eq_refl).
Defined.

(** X16: a [SendHeaders] whose write fails returns the transport's error
    and leaves the stream as it was, so the opening frame is still due: on
    a stream that has sent nothing, a failed [SendHeaders] followed by one
    that succeeds hands the opening frame to the transport twice, and
    [nFramesSent] is 1 afterwards. *)
Theorem SendHeaders_retry (final1 final2 : bool) (st : Stream)
    (f : FrameReadWriter) (e : error) :
  nFramesSent (Output st) = 0 ->
  wfail f (length (wlog f)) = Some e ->
  wfail f (S (length (wlog f))) = None ->
  ∃ f1 f2,
    writer.SendHeaders final1 st f = (st, f1, Some e)
    ∧ writer.SendHeaders final2 st f1 = (writer.set_nFramesSent 1 st, f2, None)
    ∧ wlog f2 = wlog f ++ [(opening_frame st (fin_flag final1), Some e);
                           (opening_frame st (fin_flag final2), None)].
Proof.
  intros H0 Hw1 Hw2.
  exists (WriteFrame (header_frame final1 st) f).1.
  rewrite !SendHeaders_writeFrame, !writeFrame_spec, !WriteFrame_spec.
  cbn [fst snd wlog wfail inbound].
  rewrite length_app, Nat.add_1_r, Hw1, Hw2.
  eexists. split; [reflexivity|]. split.
  - f_equal. f_equal. rewrite H0. reflexivity.
  - rewrite <- app_assoc.
    unfold header_frame, opening_frame. simpl. rewrite H0. simpl.
    by destruct final1, final2, (IsMine st).
Qed.

Lemma SendHeaders_retry_witness :
  ∃ f1 f2,
    writer.SendHeaders false (stream.newStream 1 true) framer_first_write_fails
    = (stream.newStream 1 true, f1, Some (ErrTransport 1))
    ∧ writer.SendHeaders false (stream.newStream 1 true) f1
      = (writer.set_nFramesSent 1 (stream.newStream 1 true), f2, None)
    ∧ wlog f2 = [(SynStreamFrame 1 0 ∅, Some (ErrTransport 1));
                 (SynStreamFrame 1 0 ∅, None)].
Proof.
  exact (SendHeaders_retry false false (stream.newStream 1 true)
           framer_first_write_fails (ErrTransport 1) eq_refl eq_refl eq_refl).
Defined.

(** X17: header before data. On a stream that has sent nothing, over a
    transport whose next three writes succeed, two calls of [Send] write
    the opening frame without the FIN flag, then the first data frame,
    then the second data frame: the opening frame is sent once, before
    any data, and [nFramesSent] is 1 afterwards. *)
Theorem Send_header_before_data (d1 d2 : bytes) (st : Stream)
    (f : FrameReadWriter) :
  nFramesSent (Output st) = 0 ->
  wfail f (length (wlog f)) = None ->
  wfail f (S (length (wlog f))) = None ->
  wfail f (S (S (length (wlog f)))) = None ->
  ∃ f2,
    (let '(st1, f1, _) := writer.Send d1 st f in writer.Send d2 st1 f1)
    = (writer.set_nFramesSent 1 st, f2, None)
    ∧ wlog f2 = wlog f ++ [(opening_frame st 0, None);
                           (DataFrame (Id st) 0 d1, None);
                           (DataFrame (Id st) 0 d2, None)].
Proof.
  intros H0 Hw1 Hw2 Hw3.
  rewrite (Send_first _ _ _ H0), SendHeaders_writeFrame, writeFrame_spec, Hw1.
  rewrite !WriteFrame_spec. cbv beta iota. cbn [fst snd wlog wfail inbound].
  rewrite Send_later by (simpl; by rewrite H0).
  rewrite WriteFrame_spec. cbn [fst snd wlog wfail inbound].
  rewrite !length_app. simpl length. rewrite !Nat.add_1_r. rewrite Hw2, Hw3.
  eexists. split.
  - f_equal. f_equal. simpl. rewrite H0. reflexivity.
  - rewrite <- !app_assoc.
    unfold header_frame, opening_frame. simpl. rewrite H0, Hw1. simpl.
    by destruct (IsMine st).
Qed.

Lemma Send_header_before_data_witness :
  ∃ f2,
    (let '(st1, f1, _) := writer.Send (str "a") (stream.newStream 2 false) framer_ok in
     writer.Send (str "b") st1 f1)
    = (writer.set_nFramesSent 1 (stream.newStream 2 false), f2, None)
    ∧ wlog f2 = [(SynReplyFrame 2 0 ∅, None);
                 (DataFrame 2 0 (str "a"), None);
                 (DataFrame 2 0 (str "b"), None)].
Proof.
  exact (Send_header_before_data (str "a") (str "b") (stream.newStream 2 false)
           framer_ok eq_refl eq_refl eq_refl eq_refl).
Defined.

(** ** What the writer's calls leave alone *)

Lemma kept_refl (st : Stream) (f : FrameReadWriter) : kept st f st f.
Proof. split; [|done]. by destruct st as [i inp [h n c] m]. Qed.

Lemma kept_trans (st st1 st2 : Stream) (f f1 f2 : FrameReadWriter) :
  kept st f st1 f1 -> kept st1 f1 st2 f2 -> kept st f st2 f2.
Proof.
  intros (H1 & Hi1 & Hw1) (H2 & Hi2 & Hw2).
  split; [|split; congruence].
  rewrite H2 at 1. by rewrite H1.
Qed.

Lemma writeFrame_kept (frame : Frame) (st : Stream) (f : FrameReadWriter) :
  kept st f (writer.writeFrame frame st f).1.1 (writer.writeFrame frame st f).1.2.
Proof.
  rewrite writeFrame_spec. simpl.
  destruct (wfail f (length (wlog f))); [apply (kept_refl st f)|done].
Qed.

Lemma Send_kept (data : bytes) (st : Stream) (f : FrameReadWriter) :
  kept st f (writer.Send data st f).1.1 (writer.Send data st f).1.2.
Proof.
  unfold writer.Send. destruct (nFramesSent (Output st) =? 0).
  - pose proof (writeFrame_kept (header_frame false st) st f) as Hk.
    rewrite SendHeaders_writeFrame.
    destruct (writer.writeFrame (header_frame false st) st f) as [[st1 f1] e].
    simpl in *. eapply kept_trans; [exact Hk|].
    split; [|done]. apply (kept_refl st1 f1).
  - simpl. split; [|done]. apply (kept_refl st f).
Qed.

Lemma SendLines_kept (fuel : nat) (lines : LineSource) (st : Stream)
    (f : FrameReadWriter) :
  match writer.SendLines fuel lines st f with
  | Some (_, st', f', _) => kept st f st' f'
  | None => True
  end.
Proof.
  revert lines st f. induction fuel as [|fuel IH]; intros lines st f; [done|].
  simpl. destruct (ReadLine lines) as [[line err] lines'].
  destruct (is_EOF err); [apply kept_refl|].
  destruct (negb (is_nil err)); [apply kept_refl|].
  pose proof (Send_kept line st f) as Hs.
  destruct (writer.Send line st f) as [[st1 f1] serr]. simpl in Hs.
  destruct (negb (is_nil serr)); [done|].
  specialize (IH lines' st1 f1).
  destruct (writer.SendLines fuel lines' st1 f1) as [[[[? st2] f2] ?]|]; [|done].
  by eapply kept_trans.
Qed.

Lemma do_calls_kept (cs : list writer_call) (st st' : Stream)
    (f f' : FrameReadWriter) :
  do_calls cs st f = Some (st', f') -> kept st f st' f'.
Proof.
  revert st f. induction cs as [|c cs IH]; intros st f; simpl.
  - intros [= <- <-]. apply kept_refl.
  - destruct (do_call c st f) as [[[st1 f1] err]|] eqn:Hc; [|done].
    intros H. eapply kept_trans; [|by apply IH].
    destruct c as [data|final|lines]; unfold do_call in Hc.
    + injection Hc as Hc. pose proof (Send_kept data st f) as Hk.
      by rewrite Hc in Hk.
    + injection Hc as Hc.
      pose proof (writeFrame_kept (header_frame final st) st f) as Hk.
      by rewrite <- SendHeaders_writeFrame, Hc in Hk.
    + pose proof (SendLines_kept (S (length (records lines))) lines st f) as Hk.
      destruct (writer.SendLines _ lines st f) as [[[[? st2] f2] ?]|]; [|done].
      by injection Hc as -> -> _.
Qed.

(** X18: whatever sequence of [Send], [SendHeaders] and [SendLines] calls
    is made on a stream, and whatever the transport does, the calls return,
    and all they change is the transport's log and [nFramesSent]: the id,
    [IsMine], the reader and the writer's headers are as before, and
    [nFramesSent] has grown, as a 32-bit counter, by the number of
    SYN_STREAM, SYN_REPLY and HEADERS frames written without error; a
    failed write and a data frame do not move it. *)
Theorem writer_calls_effect (cs : list writer_call) (st : Stream)
    (f : FrameReadWriter) :
  0 <= nFramesSent (Output st) < 2 ^ 32 ->
  ∃ st' f' new,
    do_calls cs st f = Some (st', f')
    ∧ wlog f' = wlog f ++ new
    ∧ nFramesSent (Output st')
      = uint32 (nFramesSent (Output st) + Z.of_nat (count_emitted_headers new))
    ∧ st' = writer.set_nFramesSent (nFramesSent (Output st')) st
    ∧ inbound f' = inbound f
    ∧ wfail f' = wfail f.
Proof.
  intros Hr.
  destruct (nFramesSent_counts_header_frames cs st f Hr)
    as (st' & f' & Hdo & new & Hlog & Hcount).
  destruct (do_calls_kept _ _ _ _ _ Hdo) as (Hst & Hin & Hw).
  by exists st', f', new.
Qed.

Lemma writer_calls_effect_witness :
  ∃ st' f' new,
    do_calls [CallSendHeaders false; CallSend (str "x");
              CallSendLines (mkLines [str "y"] io_EOF)]
      (stream.newStream 1 true) framer_third_write_fails = Some (st', f')
    ∧ wlog f' = wlog framer_third_write_fails ++ new
    ∧ nFramesSent (Output st')
      = uint32 (nFramesSent (Output (stream.newStream 1 true))
                + Z.of_nat (count_emitted_headers new))
    ∧ st' = writer.set_nFramesSent (nFramesSent (Output st'))
              (stream.newStream 1 true)
    ∧ inbound f' = inbound framer_third_write_fails
    ∧ wfail f' = wfail framer_third_write_fails.
Proof.
  assert (H : 0 <= nFramesSent (Output (stream.newStream 1 true)) < 2 ^ 32)
    by (simpl; lia).
  exact (writer_calls_effect _ (stream.newStream 1 true)
           framer_third_write_fails H).
Defined.

(** ** [SendLines] on the wire *)

Lemma send_all_cons (line : bytes) (lines : list bytes) (st : Stream)
    (f : FrameReadWriter) :
  send_all (line :: lines) st f
  = send_all lines (writer.Send line st f).1.1 (writer.Send line st f).1.2.
Proof.
  unfold send_all. simpl. by destruct (writer.Send line st f) as [[st1 f1] e].
Qed.

Lemma send_all_started (lines : list bytes) (st : Stream) (f : FrameReadWriter) :
  (∀ k, wfail f k = None) ->
  nFramesSent (Output st) ≠ 0 ->
  send_all lines st f
  = (st, mkFramer (inbound f) (wfail f) (wlog f ++ data_frames (Id st) lines)).
Proof.
  revert f. induction lines as [|line lines IH]; intros f Hok Hn.
  - unfold send_all, data_frames. simpl. rewrite app_nil_r. by destruct f.
  - rewrite send_all_cons, (Send_later _ _ _ Hn), WriteFrame_spec. simpl.
    rewrite IH by done. simpl. rewrite Hok, <- app_assoc. done.
Qed.

Lemma send_all_fresh (line : bytes) (lines : list bytes) (st : Stream)
    (f : FrameReadWriter) :
  (∀ k, wfail f k = None) ->
  nFramesSent (Output st) = 0 ->
  send_all (line :: lines) st f
  = (writer.set_nFramesSent 1 st,
     mkFramer (inbound f) (wfail f)
       (wlog f ++ (opening_frame st 0, None) :: data_frames (Id st) (line :: lines))).
Proof.
  intros Hok H0.
  rewrite send_all_cons, (Send_first _ _ _ H0).
  rewrite SendHeaders_writeFrame, writeFrame_spec, !WriteFrame_spec, Hok.
  cbv beta iota. cbn [fst snd wlog wfail inbound].
  rewrite send_all_started by (done || (simpl; by rewrite H0)).
  cbn [fst snd wlog wfail inbound]. rewrite !Hok.
  f_equal; [simpl; by rewrite H0|]. f_equal.
  rewrite <- !app_assoc. simpl. f_equal. f_equal.
  unfold header_frame, opening_frame. rewrite H0. simpl.
  by destruct (IsMine st).
Qed.

(** X19: over a transport on which no write fails, [SendLines] reads the
    source to its end and writes one data frame per record, in the order
    of the records, each with the stream's id; when the stream had sent
    nothing and there is a record, the opening frame without the FIN flag
    goes first, and only then. It returns [nil] when the source ends with
    [io.EOF], and the source's error otherwise. *)
Theorem SendLines_wire (lines : list bytes) (e : error) (st : Stream)
    (f : FrameReadWriter) :
  (∀ k, wfail f k = None) ->
  let first := (nFramesSent (Output st) =? 0)
               && (match lines with [] => false | _ => true end) in
  ∃ f',
    writer.SendLines (S (length lines)) (mkLines lines e) st f
    = Some (mkLines [] e,
            if first then writer.set_nFramesSent 1 st else st,
            f',
            match e with io_EOF => None | _ => Some e end)
    ∧ wlog f' = wlog f
                ++ (if first then [(opening_frame st 0, None)] else [])
                ++ data_frames (Id st) lines.
Proof.
  intros Hok first. rewrite (SendLines_all_sent _ _ _ _ Hok). unfold first.
  destruct (Z.eqb_spec (nFramesSent (Output st)) 0) as [H0|Hn].
  - destruct lines as [|line lines].
    + simpl. eexists. split; [reflexivity|]. by rewrite app_nil_r.
    + rewrite (send_all_fresh _ _ _ _ Hok H0). simpl. eauto.
  - rewrite (send_all_started _ _ _ Hok Hn). simpl. eauto.
Qed.

Lemma SendLines_wire_witness :
  ∃ f',
    writer.SendLines 3 (mkLines [str "a"; str "b"] (ErrTransport 5))
      (stream.newStream 1 true) framer_ok
    = Some (mkLines [] (ErrTransport 5),
            writer.set_nFramesSent 1 (stream.newStream 1 true), f',
            Some (ErrTransport 5))
    ∧ wlog f' = [(SynStreamFrame 1 0 ∅, None);
                 (DataFrame 1 0 (str "a"), None);
                 (DataFrame 1 0 (str "b"), None)].
Proof.
  assert (Hok : ∀ k, wfail framer_ok k = None) by done.
  exact (SendLines_wire [str "a"; str "b"] (ErrTransport 5)
           (stream.newStream 1 true) framer_ok Hok).
Defined.

(** X20: [SendLines] stops at the first send that fails: when the sends of
    the records before it succeed and the send of a record fails,
    [SendLines] returns right after that send; the records after it are
    left in the source, unread, and nothing more is written. *)
Theorem SendLines_stops (fuel : nat) (sent : list bytes) (line : bytes)
    (rest : list bytes) (e : error) (st : Stream) (f : FrameReadWriter) :
  sends_ok sent st f = true ->
  (writer.Send line (send_all sent st f).1 (send_all sent st f).2).2 ≠ None ->
  (length sent < fuel)%nat ->
  ∃ ret,
    writer.SendLines fuel (mkLines (sent ++ line :: rest) e) st f
    = Some (mkLines rest e,
            (writer.Send line (send_all sent st f).1 (send_all sent st f).2).1.1,
            (writer.Send line (send_all sent st f).1 (send_all sent st f).2).1.2,
            ret).
Proof.
  revert fuel st f. induction sent as [|l sent IH]; intros fuel st f Hok Hfail Hlt;
    (destruct fuel as [|fuel]; [simpl in Hlt; lia|]).
  - exists None. by apply SendLines_send_fails.
  - rewrite send_all_cons in Hfail |- *.
    simpl in Hok.
    change (writer.SendLines (S fuel) (mkLines ((l :: sent) ++ line :: rest) e) st f)
      with (let '(st1, f1, serr) := writer.Send l st f in
            if negb (is_nil serr) then Some (mkLines (sent ++ line :: rest) e, st1, f1, None)
            else writer.SendLines fuel (mkLines (sent ++ line :: rest) e) st1 f1).
    destruct (writer.Send l st f) as [[st1 f1] serr].
    apply andb_prop in Hok as [Hnil Hok]. rewrite Hnil. simpl.
    apply IH; [done|done|simpl in Hlt; lia].
Qed.

Lemma SendLines_stops_witness :
  ∃ ret f',
    writer.SendLines 5 (mkLines [str "a"; str "b"; str "c"] io_EOF)
      (stream.newStream 1 true) framer_third_write_fails
    = Some (mkLines [str "c"] io_EOF,
            writer.set_nFramesSent 1 (stream.newStream 1 true), f', ret)
    ∧ wlog f' = [(SynStreamFrame 1 0 ∅, None);
                 (DataFrame 1 0 (str "a"), None);
                 (DataFrame 1 0 (str "b"), Some (ErrTransport 3))].
Proof.
  assert (Hfail : (writer.Send (str "b")
                     (send_all [str "a"] (stream.newStream 1 true)
                        framer_third_write_fails).1
                     (send_all [str "a"] (stream.newStream 1 true)
                        framer_third_write_fails).2).2 ≠ None)
    by (vm_compute; discriminate).
  assert (Hlt : (length [str "a"] < 5)%nat) by (simpl; lia).
  destruct (SendLines_stops 5 [str "a"] (str "b") [str "c"] io_EOF
              (stream.newStream 1 true) framer_third_write_fails
              eq_refl Hfail Hlt) as [ret H].
  exists ret. eexists. split; [exact H|reflexivity].
Defined.

(** * Further properties of the reader *)





(** ** [Pipe] *)

Lemma Pipe_step (fuel : nat) (h : Header) (msg : streamMessage)
    (rest : list streamMessage) (c : bool) (w : Stream) (f : FrameReadWriter) :
  reader.Pipe (S fuel) (mkReader h (mkMQ (msg :: rest) c)) w f
  = match msg_headers msg, msg_data msg with
    | Some hs, _ =>
        let '(w1, f1, _) :=
          writer.SendHeaders false
            (writer.set_headers (updateHeaders (writer.Headers w) hs) w) f in
        reader.Pipe fuel (mkReader h (mkMQ rest c)) w1 f1
    | None, Some d =>
        let '(w1, f1, _) := writer.Send d w f in
        reader.Pipe fuel (mkReader h (mkMQ rest c)) w1 f1
    | None, None => reader.Pipe fuel (mkReader h (mkMQ rest c)) w f
    end.
Proof. reflexivity. Qed.




(** X24: [Pipe] returns only at the end of the stream: while the reader's
    queue is open it does not return, however many messages it has
    forwarded. *)
Theorem Pipe_waits_for_close (fuel : nat) (r : StreamReader) (w : Stream)
    (f : FrameReadWriter) :
  mq_closed (data r) = false ->
  reader.Pipe fuel r w f = None.
Proof.
  destruct r as [h [its c]]. simpl. intros ->.
  revert its w f. induction fuel as [|fuel IH]; intros its w f; [done|].
  destruct its as [|msg its]; [done|].
  rewrite Pipe_step.
  destruct (msg_headers msg) as [hs|]; [|destruct (msg_data msg) as [d|]].
  - destruct (writer.SendHeaders false _ f) as [[w1 f1] e1]. apply IH.
  - destruct (writer.Send d w f) as [[w1 f1] e1]. apply IH.
  - apply IH.
Qed.

Lemma Pipe_waits_for_close_witness :
  reader.Pipe 10 reader_with_status (stream.newStream 1 true) framer_ok = None.
Proof.
  exact (Pipe_waits_for_close 10 reader_with_status (stream.newStream 1 true)
           framer_ok eq_refl).
Defined.

(** * The parity of the ids *)

Lemma isLocalId_uint32 (s : Session) (z : Z) :
  session.isLocalId s (uint32 (z + 2)) = session.isLocalId s z.
Proof.
  unfold session.isLocalId, uint32.
  rewrite Z.mod_mod_divide by (by exists (2 ^ 31)).
  replace (z + 2) with (z + 1 * 2) by lia. by rewrite Z.mod_add by lia.
Qed.

Lemma next_ids_parity (s : Session) :
  marks_parity s ->
  session.isLocalId s (session.nextIdOut s) = true
  ∧ session.isLocalId s (session.nextIdIn s) = false.
Proof.
  intros [Hout Hin]. unfold session.nextIdOut, session.nextIdIn. split.
  - destruct (Z.eqb_spec (lastStreamIdOut s) 0) as [H0|Hne].
    + unfold session.isLocalId. by destruct (Server s).
    + rewrite isLocalId_uint32. by destruct Hout.
  - destruct (Z.eqb_spec (lastStreamIdIn s) 0) as [H0|Hne].
    + unfold session.isLocalId. by destruct (Server s).
    + rewrite isLocalId_uint32. by destruct Hin.
Qed.

Lemma marks_parity_fields (s s' : Session) :
  Server s' = Server s ->
  lastStreamIdOut s' = lastStreamIdOut s ->
  lastStreamIdIn s' = lastStreamIdIn s ->
  marks_parity s -> marks_parity s'.
Proof.
  intros Hs Ho Hi [Hout Hin]. unfold marks_parity.
  rewrite Ho, Hi, !(isLocalId_Server s s') by done. done.
Qed.

Lemma newStream_marks_parity (id : Z) (local : bool) (s : Session) :
  marks_parity s -> marks_parity (session.newStream id local s).1.
Proof.
  intros [Hout Hin].
  destruct (session.newStream id local s) as [s' [p|err]] eqn:H.
  - apply newStream_ok in H as (Hl & _ & _ & _ & ->).
    destruct local; (split; simpl; [|]);
      rewrite ?(isLocalId_Server s) by done; auto.
  - by rewrite (newStream_error _ _ _ _ _ H).
Qed.

Lemma CloseStreams_marks_parity (ids : list Z) (s : Session) :
  marks_parity s -> marks_parity (session.CloseStreams ids s).
Proof.
  destruct (CloseStreams_last_ids ids s) as (Hi & Ho & Hs).
  by apply marks_parity_fields.
Qed.

Lemma processFrame_marks_parity
    (Input_WriteFrame : Frame -> StreamReader -> StreamReader * option error)
    (frame : Frame) (s : Session) :
  marks_parity s ->
  marks_parity (session.processFrame Input_WriteFrame frame s).
Proof.
  intros Hm. unfold session.processFrame.
  destruct (negb (GetStreamId frame =? 0)); [|done].
  assert (Hroute : ∀ s0, marks_parity s0 ->
            marks_parity (session.route Input_WriteFrame frame (GetStreamId frame) s0)).
  { intros s0.
    destruct (route_fields Input_WriteFrame frame (GetStreamId frame) s0)
      as (Hi & Ho & Hs & _).
    by apply marks_parity_fields. }
  destruct (is_SynStreamFrame frame); [|by apply Hroute].
  pose proof (newStream_marks_parity (GetStreamId frame) false s Hm) as Hm1.
  destruct (session.newStream (GetStreamId frame) false s) as [s1 [p|err]] eqn:H.
  - by apply Hroute.
  - by rewrite (newStream_error _ _ _ _ _ H) in *.
Qed.

Lemma reachable_marks_parity
    (Input_WriteFrame : Frame -> StreamReader -> StreamReader * option error)
    (s : Session) :
  reachable Input_WriteFrame s -> marks_parity s.
Proof.
  induction 1 as [framer handler server|ev s _ IH].
  - split; by left.
  - destruct ev as [|id| |frame]; simpl.
    + rewrite OpenStream_newStream. by apply newStream_marks_parity.
    + destruct (CloseStream_last_ids id s) as (Hi & Ho & Hs).
      by apply (marks_parity_fields s).
    + by apply CloseStreams_marks_parity.
    + by apply processFrame_marks_parity.
Qed.

(** X25: the two sides never take each other's ids. An id is local for
    exactly one of the two roles, and in every session a program can see,
    also after the ids have wrapped around, the id [nextIdOut] allocates
    has this side's parity and the id [nextIdIn] expects has the peer's. *)
Theorem next_ids_keep_parity
    (Input_WriteFrame : Frame -> StreamReader -> StreamReader * option error)
    (s : Session) :
  reachable Input_WriteFrame s ->
  session.isLocalId s (session.nextIdOut s) = true
  ∧ session.isLocalId s (session.nextIdIn s) = false
  ∧ (∀ c id, Server c = negb (Server s) ->
       session.isLocalId c id = negb (session.isLocalId s id)).
Proof.
  intros Hreach.
  destruct (next_ids_parity s (reachable_marks_parity _ _ Hreach)) as [Ho Hi].
  split; [done|]. split; [done|].
  intros c id Hc. unfold session.isLocalId. rewrite Hc.
  by destruct (Server s), (id mod 2 =? 0).
Qed.

Lemma next_ids_keep_parity_witness :
  session.isLocalId session_two_streams (session.nextIdOut session_two_streams)
  = true
  ∧ session.isLocalId session_two_streams (session.nextIdIn session_two_streams)
    = false.
Proof.
  pose proof (next_ids_keep_parity reader.WriteFrame session_two_streams
                session_two_streams_reachable) as H.
  exact (conj (proj1 H) (proj1 (proj2 H))).
Defined.
